(** * The particle-physics worker of [src/components/EngineView.tsx]

    A shallow embedding of [PHYSICS_WORKER_CODE]: the message handler
    [self.onmessage] with its five commands (INIT, SPAWN, STEP, EXPLOSION,
    RESET) over the module-level array [objects].

    The worker computes with JavaScript numbers (IEEE binary64) and keeps
    [pos], [prevPos] and [vel] in [Float32Array]s, so every store into them
    rounds to binary32.  The kernel below is written once, over an interface
    [Arith] of the operations the source uses, and read at two carriers:
    - [ArithFloat]: Rocq's primitive binary64 floats with the binary32
      rounding of the typed arrays.  This is the arithmetic the worker
      runs, and the one a statement about the program has to hold in.
    - [ArithR]: the real numbers with no rounding, no overflow and no NaN.
      This is an idealisation: a law proved there says what the formulas
      of the code mean, not what the program computes.
    What is said of the program is stated at every carrier ([ArithFloat]
    included) or at [ArithFloat] itself.  What is stated at [ArithR] is
    marked as read in exact arithmetic, and where the program departs from
    it the behaviour in binary arithmetic is stated beside it. *)

From Stdlib Require Import ZArith QArith List Bool Floats Reals Lra Lia.
Import ListNotations.

Close Scope Q_scope.
Set Implicit Arguments.

(** ** The arithmetic interface *)

Class Arith (F : Type) : Type := {
  flit : Q -> F;            (* a decimal literal of the source *)
  fadd : F -> F -> F;
  fsub : F -> F -> F;
  fmul : F -> F -> F;
  fdiv : F -> F -> F;
  fsqrt : F -> F;           (* Math.sqrt *)
  fabs : F -> F;            (* Math.abs *)
  fsign : F -> F;           (* Math.sign *)
  fltb : F -> F -> bool;    (* a < b *)
  ftruthy : F -> bool;      (* ToBoolean, as used by [||] *)
  fround : F -> F           (* the rounding of a store into a Float32Array *)
}.

Declare Scope arith_scope.
Delimit Scope arith_scope with arith.
Infix "+!" := fadd (at level 50, left associativity) : arith_scope.
Infix "-!" := fsub (at level 50, left associativity) : arith_scope.
Infix "*!" := fmul (at level 40, left associativity) : arith_scope.
Infix "/!" := fdiv (at level 40, left associativity) : arith_scope.
Infix "<!" := fltb (at level 70, no associativity) : arith_scope.
Notation "a >! b" := (fltb b a) (at level 70, no associativity) : arith_scope.
Local Open Scope arith_scope.

(** *** Binary64 numbers with binary32 typed arrays *)

Module Float64.

Definition of_Z (z : Z) : float :=
  match z with
  | Z0 => PrimFloat.zero
  | Zpos _ => PrimFloat.of_uint63 (Uint63.of_Z z)
  | Zneg p => PrimFloat.opp (PrimFloat.of_uint63 (Uint63.of_Z (Zpos p)))
  end.

(** A decimal literal [n/d] with [n] and [d] below [2^53]: both are exact
    binary64 numbers and the division rounds their quotient to nearest,
    which is the value the literal denotes. *)
Definition lit (q : Q) : float :=
  PrimFloat.div (of_Z (Qnum q)) (of_Z (Zpos (Qden q))).

(** [Math.fround]: round a binary64 number to the nearest binary32 one
    (24 bits of precision, exponents up to 128), ties to even. *)
Definition fround32 (x : float) : float :=
  match Prim2SF x with
  | S754_finite s m e => SF2Prim (binary_round 24 128 s m e)
  | _ => x
  end.

Definition sign (x : float) : float :=
  if PrimFloat.ltb PrimFloat.zero x then PrimFloat.one
  else if PrimFloat.ltb x PrimFloat.zero then PrimFloat.opp PrimFloat.one
  else x.

Definition truthy (x : float) : bool :=
  negb (PrimFloat.is_zero x || PrimFloat.is_nan x).

End Float64.

#[export] Instance ArithFloat : Arith float := {|
  flit := Float64.lit;
  fadd := PrimFloat.add;
  fsub := PrimFloat.sub;
  fmul := PrimFloat.mul;
  fdiv := PrimFloat.div;
  fsqrt := PrimFloat.sqrt;
  fabs := PrimFloat.abs;
  fsign := Float64.sign;
  fltb := PrimFloat.ltb;
  ftruthy := Float64.truthy;
  fround := Float64.fround32
|}.

(** *** Exact real arithmetic *)

Module Exact.

Definition ltb (a b : R) : bool := if Rlt_dec a b then true else false.

Definition sign (x : R) : R :=
  if Rlt_dec 0 x then 1%R else if Rlt_dec x 0 then (-1)%R else x.

Definition truthy (x : R) : bool := if Req_dec_T x 0 then false else true.

End Exact.

#[export] Instance ArithR : Arith R := {|
  flit := Q2R;
  fadd := Rplus;
  fsub := Rminus;
  fmul := Rmult;
  fdiv := Rdiv;
  fsqrt := sqrt;
  fabs := Rabs;
  fsign := Exact.sign;
  fltb := Exact.ltb;
  ftruthy := Exact.truthy;
  fround := fun x => x
|}.

(** ** The worker *)

Section Worker.

Context {F : Type} {A : Arith F}.

(** *** Data *)

(** An index into a three-element array. *)
Inductive axis : Type := i0 | i1 | i2.

(** A [Float32Array] of length 3. *)
Record Vec3 : Type := vec3 { e0 : F; e1 : F; e2 : F }.

Definition get (v : Vec3) (i : axis) : F :=
  match i with i0 => e0 v | i1 => e1 v | i2 => e2 v end.

(** [v[i] = x]: the store rounds to binary32. *)
Definition put (v : Vec3) (i : axis) (x : F) : Vec3 :=
  match i with
  | i0 => vec3 (fround x) (e1 v) (e2 v)
  | i1 => vec3 (e0 v) (fround x) (e2 v)
  | i2 => vec3 (e0 v) (e1 v) (fround x)
  end.

(** [new Float32Array([x, y, z])] *)
Definition Float32Array (t : F * F * F) : Vec3 :=
  let '(x, y, z) := t in vec3 (fround x) (fround y) (fround z).

Record Body : Type := mkBody {
  pos : Vec3;
  prevPos : Vec3;
  vel : Vec3;
  radius : F;
  invMass : F
}.

(** [obj.pos[i] = x], [obj.prevPos[i] = x], [obj.vel[i] = x] *)
Definition pos_put (i : axis) (x : F) (obj : Body) : Body :=
  mkBody (put (pos obj) i x) (prevPos obj) (vel obj) (radius obj) (invMass obj).
Definition prevPos_put (i : axis) (x : F) (obj : Body) : Body :=
  mkBody (pos obj) (put (prevPos obj) i x) (vel obj) (radius obj) (invMass obj).
Definition vel_put (i : axis) (x : F) (obj : Body) : Body :=
  mkBody (pos obj) (prevPos obj) (put (vel obj) i x) (radius obj) (invMass obj).

(** The element of an INIT payload and the payload of SPAWN: plain arrays
    of numbers and a radius. *)
Record BodyInit : Type := mkInit {
  init_pos : F * F * F;
  init_vel : F * F * F;
  init_radius : F
}.

(** *** Constants *)

Definition WORLD_SIZE : F := flit 25.
Definition GRAVITY : F := flit (-9.81) *! flit 0.001.
Definition DAMPING : F := flit 0.995.
Definition FRICTION : F := flit 0.95.
Definition substeps : nat := 12.
Definition iterations : nat := 4.

(** *** INIT and SPAWN *)

Definition new_object (obj : BodyInit) : Body :=
  {| pos := Float32Array (init_pos obj);
     prevPos := Float32Array (init_pos obj);
     vel := Float32Array (init_vel obj);
     radius := init_radius obj;
     invMass := flit 1 |}.

Definition init (payload : list BodyInit) : list Body := map new_object payload.

Definition spawn (payload : BodyInit) (objects : list Body) : list Body :=
  objects ++ [new_object payload].

(** *** STEP *)

(** [payload.dt || 1.0]; [None] is a payload without [dt]. *)
Definition dt_or_default (dt : option F) : F :=
  match dt with
  | Some d => if ftruthy d then d else flit 1
  | None => flit 1
  end.

Definition substep_size (dt : option F) : F :=
  dt_or_default dt /! flit (inject_Z (Z.of_nat substeps)).

(** 1. Prediction step, the body of the loop over [objects]. *)
Definition predict (h : F) (obj : Body) : Body :=
  let obj := vel_put i1 (get (vel obj) i1 +! GRAVITY *! h) obj in
  let obj := vel_put i0 (get (vel obj) i0 *! DAMPING) obj in
  let obj := vel_put i1 (get (vel obj) i1 *! DAMPING) obj in
  let obj := vel_put i2 (get (vel obj) i2 *! DAMPING) obj in
  let obj := prevPos_put i0 (get (pos obj) i0) obj in
  let obj := prevPos_put i1 (get (pos obj) i1) obj in
  let obj := prevPos_put i2 (get (pos obj) i2) obj in
  let obj := pos_put i0 (get (pos obj) i0 +! get (vel obj) i0 *! h) obj in
  let obj := pos_put i1 (get (pos obj) i1 +! get (vel obj) i1 *! h) obj in
  let obj := pos_put i2 (get (pos obj) i2 +! get (vel obj) i2 *! h) obj in
  obj.

(** 2a. Environment constraints (ground and walls) on one body. *)
Definition floor_constraint (obj : Body) : Body :=
  if get (pos obj) i1 <! radius obj then
    let obj := pos_put i1 (radius obj) obj in
    let obj := vel_put i0 (get (vel obj) i0 *! FRICTION) obj in
    let obj := vel_put i2 (get (vel obj) i2 *! FRICTION) obj in
    obj
  else obj.

Definition boundary_constraint (i : axis) (obj : Body) : Body :=
  if fabs (get (pos obj) i) >! WORLD_SIZE then
    let obj := pos_put i (fsign (get (pos obj) i) *! WORLD_SIZE) obj in
    let obj := vel_put i (get (vel obj) i *! flit (-0.5)) obj in
    obj
  else obj.

Definition environment (obj : Body) : Body :=
  boundary_constraint i2 (boundary_constraint i0 (floor_constraint obj)).

(** 2b. Particle-particle constraint on the pair [(a, b)]. *)
Definition distSq_of (a b : Body) : F :=
  let dx := get (pos b) i0 -! get (pos a) i0 in
  let dy := get (pos b) i1 -! get (pos a) i1 in
  let dz := get (pos b) i2 -! get (pos a) i2 in
  dx *! dx +! dy *! dy +! dz *! dz.

Definition minDist_of (a b : Body) : F := radius a +! radius b.

Definition penetrating (a b : Body) : bool :=
  (distSq_of a b <! minDist_of a b *! minDist_of a b)
  && (distSq_of a b >! flit 0.00001).

Definition resolve_pair (a b : Body) : Body * Body :=
  let dx := get (pos b) i0 -! get (pos a) i0 in
  let dy := get (pos b) i1 -! get (pos a) i1 in
  let dz := get (pos b) i2 -! get (pos a) i2 in
  let distSq := dx *! dx +! dy *! dy +! dz *! dz in
  let minDist := radius a +! radius b in
  if (distSq <! minDist *! minDist) && (distSq >! flit 0.00001) then
    let dist := fsqrt distSq in
    let overlap := minDist -! dist in
    let nx := dx /! dist in
    let ny := dy /! dist in
    let nz := dz /! dist in
    let totalInvMass := invMass a +! invMass b in
    let corrA := overlap *! (invMass a /! totalInvMass) in
    let corrB := overlap *! (invMass b /! totalInvMass) in
    let a := pos_put i0 (get (pos a) i0 -! nx *! corrA) a in
    let a := pos_put i1 (get (pos a) i1 -! ny *! corrA) a in
    let a := pos_put i2 (get (pos a) i2 -! nz *! corrA) a in
    let b := pos_put i0 (get (pos b) i0 +! nx *! corrB) b in
    let b := pos_put i1 (get (pos b) i1 +! ny *! corrB) b in
    let b := pos_put i2 (get (pos b) i2 +! nz *! corrB) b in
    (a, b)
  else (a, b).

(** [objects[n] = x] for [n] inside the array. *)
Fixpoint update (n : nat) (x : Body) (objects : list Body) : list Body :=
  match objects, n with
  | [], _ => []
  | _ :: rest, O => x :: rest
  | o :: rest, S m => o :: update m x rest
  end.

(** The body of the inner loop: [a = objects[i]], [b = objects[j]] are
    mutated in place. *)
Definition resolve_at (i j : nat) (objects : list Body) : list Body :=
  match nth_error objects i, nth_error objects j with
  | Some a, Some b =>
      let '(a', b') := resolve_pair a b in
      update j b' (update i a' objects)
  | _, _ => objects
  end.

(** [for (j = i + 1; j < objects.length; j++)] *)
Definition inner_loop (i : nat) (objects : list Body) : list Body :=
  fold_left (fun objs j => resolve_at i j objs)
            (seq (S i) (length objects - S i)) objects.

(** [for (i = 0; i < objects.length; i++)] *)
Definition particle_constraints (objects : list Body) : list Body :=
  fold_left (fun objs i => inner_loop i objs) (seq 0 (length objects)) objects.

(** One solver iteration: the environment loop, then the pair loop. *)
Definition solver_iteration (objects : list Body) : list Body :=
  particle_constraints (map environment objects).

(** 3. Velocity update. *)
Definition snap (i : axis) (obj : Body) : Body :=
  if fabs (get (vel obj) i) <! flit 0.001 then vel_put i (flit 0) obj else obj.

Definition velocity_update (h : F) (obj : Body) : Body :=
  let obj := vel_put i0 ((get (pos obj) i0 -! get (prevPos obj) i0) /! h) obj in
  let obj := vel_put i1 ((get (pos obj) i1 -! get (prevPos obj) i1) /! h) obj in
  let obj := vel_put i2 ((get (pos obj) i2 -! get (prevPos obj) i2) /! h) obj in
  let obj := snap i0 obj in
  let obj := snap i1 obj in
  let obj := snap i2 obj in
  obj.

(** The body of [for (s = 0; s < substeps; s++)]. *)
Definition substep (h : F) (objects : list Body) : list Body :=
  map (velocity_update h)
      (Nat.iter iterations solver_iteration (map (predict h) objects)).

Definition step (dt : option F) (objects : list Body) : list Body :=
  Nat.iter substeps (substep (substep_size dt)) objects.

(** The [positions] array posted back: one triple per body, in order. *)
Definition positions_of (objects : list Body) : list F :=
  flat_map (fun o => [fround (get (pos o) i0);
                      fround (get (pos o) i1);
                      fround (get (pos o) i2)]) objects.

(** *** EXPLOSION and RESET *)

(** [Math.random] is the one outside source the worker reads: [random k]
    is what its [k]-th call returns, and the worker state counts the
    calls made so far. *)
Variable random : nat -> F.

Definition explode_one (n : nat) (obj : Body) : Body :=
  let force := flit 3.5 in
  let obj := vel_put i0 (get (vel obj) i0 +! (random n -! flit 0.5) *! force) obj in
  let obj := vel_put i1 (get (vel obj) i1 +! random (n + 1) *! force *! flit 1.5) obj in
  let obj := vel_put i2 (get (vel obj) i2 +! (random (n + 2) -! flit 0.5) *! force) obj in
  obj.

Fixpoint explosion (n : nat) (objects : list Body) : list Body * nat :=
  match objects with
  | [] => ([], n)
  | obj :: rest =>
      let obj' := explode_one n obj in
      let '(rest', n') := explosion (n + 3) rest in
      (obj' :: rest', n')
  end.

(** [obj.vel.fill(0)] *)
Definition vel_fill (x : F) (obj : Body) : Body :=
  mkBody (pos obj) (prevPos obj) (vec3 (fround x) (fround x) (fround x))
         (radius obj) (invMass obj).

Definition respawn_one (n : nat) (obj : Body) : Body :=
  let obj := pos_put i0 ((random n -! flit 0.5) *! flit 5.0) obj in
  let obj := pos_put i1 (flit 10 +! random (n + 1) *! flit 20) obj in
  let obj := pos_put i2 ((random (n + 2) -! flit 0.5) *! flit 5.0) obj in
  let obj := vel_fill (flit 0) obj in
  obj.

Fixpoint respawn (n : nat) (objects : list Body) : list Body * nat :=
  match objects with
  | [] => ([], n)
  | obj :: rest =>
      let obj' := respawn_one n obj in
      let '(rest', n') := respawn (n + 3) rest in
      (obj' :: rest', n')
  end.

(** [objects = objects.slice(0, 35)] and the loop over the kept bodies. *)
Definition reset (n : nat) (objects : list Body) : list Body * nat :=
  respawn n (firstn 35 objects).

(** *** The message handler *)

(** [e.data = { type, payload }].  RESET and EXPLOSION are posted without a
    payload and their cases never read one; [RESET] carries the count a
    caller may put there.  [INIT_undefined], [SPAWN_undefined] and
    [STEP_undefined] are the messages [{ type: 'INIT' }], [{ type: 'SPAWN' }]
    and [{ type: 'STEP' }] whose [payload] is [undefined]; [OTHER] is a
    message of any other type. *)
Inductive Msg : Type :=
| INIT (payload : list BodyInit)
| SPAWN (payload : BodyInit)
| STEP (dt : option F)
| EXPLOSION
| RESET (payload : option nat)
| OTHER
| INIT_undefined
| SPAWN_undefined
| STEP_undefined.

(** The messages on which the handler throws: the cases INIT, SPAWN and
    STEP start by reading [payload.map], [payload.pos] and [payload.dt],
    which is a [TypeError] on [undefined], raised before anything is
    assigned, pushed or posted. *)
Definition throws (e : Msg) : bool :=
  match e with
  | INIT_undefined | SPAWN_undefined | STEP_undefined => true
  | _ => false
  end.

Record Worker : Type := mkWorker {
  objects : list Body;
  random_calls : nat
}.

(** The worker as created: [let objects = []]. *)
Definition start : Worker := mkWorker [] 0.

(** What a message sends back: nothing, or [{ type: 'UPDATE', positions }].
    A handler that throws has sent nothing and has changed nothing; the
    worker goes on with the next message. *)
Definition Reply : Type := option (list F).

Definition onmessage (e : Msg) (w : Worker) : Worker * Reply :=
  match e with
  | INIT payload => (mkWorker (init payload) (random_calls w), None)
  | SPAWN payload => (mkWorker (spawn payload (objects w)) (random_calls w), None)
  | STEP dt =>
      let objs := step dt (objects w) in
      (mkWorker objs (random_calls w), Some (positions_of objs))
  | EXPLOSION =>
      let '(objs, n) := explosion (random_calls w) (objects w) in
      (mkWorker objs n, None)
  | RESET _ =>
      let '(objs, n) := reset (random_calls w) (objects w) in
      (mkWorker objs n, None)
  | OTHER => (w, None)
  | INIT_undefined | SPAWN_undefined | STEP_undefined => (w, None)
  end.

(** A sequence of messages, handled one after the other; the replies in
    order. *)
Fixpoint run (es : list Msg) (w : Worker) : Worker * list Reply :=
  match es with
  | [] => (w, [])
  | e :: rest =>
      let '(w1, r) := onmessage e w in
      let '(w2, rs) := run rest w1 in
      (w2, r :: rs)
  end.

(** The states the worker can be in: reached from [start] by messages. *)
Inductive reachable : Worker -> Prop :=
| reach_start : reachable start
| reach_msg : forall e w, reachable w -> reachable (fst (onmessage e w)).

End Worker.

Arguments Vec3 F : clear implicits.
Arguments Body F : clear implicits.
Arguments BodyInit F : clear implicits.
Arguments Msg F : clear implicits.
Arguments Worker F : clear implicits.
Arguments Reply F : clear implicits.

(** ** Vocabulary of the statements *)

Section Vocabulary.

Context {F : Type} {A : Arith F}.

(** The value [snap] leaves in a velocity component [v]. *)
Definition snapped (v : F) : F :=
  if fabs v <! flit 0.001 then fround (flit 0) else v.

(** The velocity the prediction step leaves, by component. *)
Definition predicted_vel (h : F) (v : Vec3 F) : Vec3 F :=
  vec3 (fround (e0 v *! DAMPING))
       (fround (fround (e1 v +! GRAVITY *! h) *! DAMPING))
       (fround (e2 v *! DAMPING)).

(** A reading [g] of a body that resolving a pair does not change. *)
Definition pair_stable (T : Type) (g : Body F -> T) : Prop :=
  forall a b, g (fst (resolve_pair a b)) = g a /\ g (snd (resolve_pair a b)) = g b.

(** A reading that no phase of a substep changes. *)
Definition step_stable (T : Type) (g : Body F -> T) : Prop :=
  pair_stable g
  /\ (forall h o, g (predict h o) = g o)
  /\ (forall o, g (environment o) = g o)
  /\ (forall h o, g (velocity_update h o) = g o).

(** The pairs [(i, j)] the two nested loops visit over an array of length
    [n], in the order they visit them. *)
Definition pairs (n : nat) : list (nat * nat) :=
  flat_map (fun i => map (pair i) (seq (S i) (n - S i))) (seq 0 n).

(** The quantities of one pair resolution: center distance, overlap
    depth, contact normal (from [a] to [b]) and the share of the overlap
    body [x] of the pair takes. *)
Definition dist_of (a b : Body F) : F := fsqrt (distSq_of a b).
Definition overlap_of (a b : Body F) : F := minDist_of a b -! dist_of a b.
Definition normal_of (a b : Body F) (i : axis) : F :=
  (get (pos b) i -! get (pos a) i) /! dist_of a b.
Definition corr_of (x a b : Body F) : F :=
  overlap_of a b *! (invMass x /! (invMass a +! invMass b)).

(** Body [x] with its position moved by [c] against, or along, [n]. *)
Definition pushed_back (x : Body F) (n : axis -> F) (c : F) : Body F :=
  mkBody (vec3 (fround (e0 (pos x) -! n i0 *! c))
               (fround (e1 (pos x) -! n i1 *! c))
               (fround (e2 (pos x) -! n i2 *! c)))
         (prevPos x) (vel x) (radius x) (invMass x).
Definition pushed_on (x : Body F) (n : axis -> F) (c : F) : Body F :=
  mkBody (vec3 (fround (e0 (pos x) +! n i0 *! c))
               (fround (e1 (pos x) +! n i1 *! c))
               (fround (e2 (pos x) +! n i2 *! c)))
         (prevPos x) (vel x) (radius x) (invMass x).

(** Containment with tolerance [eps], as the tests of the code read it: a
    body is outside when it is below the floor line [radius - eps] or
    beyond a wall line [WORLD_SIZE + eps]. *)
Definition outside (eps : F) (b : Body F) : bool :=
  (e1 (pos b) <! radius b -! eps)
  || (fabs (e0 (pos b)) >! WORLD_SIZE +! eps)
  || (fabs (e2 (pos b)) >! WORLD_SIZE +! eps).

Definition contained (eps : F) (b : Body F) : Prop := outside eps b = false.

(** What a clamp leaves of a coordinate, in the terms of the code: the test
    of the clamp is false on it, or it is the value the clamp stored.  The
    floor clamp stores [radius], rounded to binary32 by the array; a wall
    clamp stores [Math.sign(x0) * WORLD_SIZE] for a coordinate [x0] its
    test was true on. *)
Definition floor_clamped (b : Body F) : Prop :=
  (e1 (pos b) <! radius b) = false \/ e1 (pos b) = fround (radius b).

Definition wall_clamped (x : F) : Prop :=
  (fabs x >! WORLD_SIZE) = false
  \/ exists x0 : F,
       (fabs x0 >! WORLD_SIZE) = true /\ x = fround (fsign x0 *! WORLD_SIZE).

Definition clamped (b : Body F) : Prop :=
  floor_clamped b /\ wall_clamped (e0 (pos b)) /\ wall_clamped (e2 (pos b)).

(** No wall test is true on the body. *)
Definition within_walls (b : Body F) : Prop :=
  (fabs (e0 (pos b)) >! WORLD_SIZE) = false
  /\ (fabs (e2 (pos b)) >! WORLD_SIZE) = false.

(** Containment as the clamps establish it in the arrays: no wall test is
    true; the floor test is false or the height is the stored radius; and
    the floor test is false whenever the stored radius is not below the
    radius itself. *)
Definition contained_as_stored (b : Body F) : Prop :=
  within_walls b /\ floor_clamped b
  /\ ((fround (radius b) <! radius b) = false ->
      (e1 (pos b) <! radius b) = false).


End Vocabulary.

(** ** The component around the worker

    [EngineView] creates the worker, keeps one mesh per body in
    [meshesRef], posts the commands and shows the positions the worker
    posts back.  The model keeps what decides the traffic with the worker:
    [meshesRef], the messages posted in order, and the calls of
    [Math.random] the component makes.  The scene graph, the camera and the
    renderer of three.js, and the statistics passed to [onStatsUpdate], are
    not part of it.  The handlers are modelled as they run once the effect
    has set [sceneRef] and [workerRef]; nothing clears these afterwards, so
    the guards on them pass. *)

Section Component.

Context {F : Type} {A : Arith F}.

Inductive Color : Type :=
| Hex (rgb : Z)            (* new THREE.Color(0x...) *)
| HSL (h s l : F).         (* new THREE.Color().setHSL(h, s, l) *)

(** A mesh: the uniforms of its material and [mesh.position]. *)
Record Mesh : Type := mkMesh {
  uColor : Color;
  uRoughness : F;
  uMetalness : F;
  position : F * F * F
}.

(** [mesh.position.set(x, y, z)] *)
Definition position_set (m : Mesh) (x y z : F) : Mesh :=
  mkMesh (uColor m) (uRoughness m) (uMetalness m) (x, y, z).

(** [Math.random] as the component sees it: [random k] is the result of
    the [k]-th call the component makes. *)
Variable random : nat -> F.

(** The body of the loop of the effect, for sphere [i], with [n] calls of
    [Math.random] made before: the mesh and its entry of [initialData]. *)
Definition initial_color (i : nat) : Color :=
  if Nat.eqb (i mod 3) 0 then Hex 0x06b6d4
  else if Nat.eqb (i mod 3) 1 then Hex 0x3b82f6 else Hex 0x8b5cf6.

Definition initial_sphere (i n : nat) : Mesh * BodyInit F :=
  let roughness := flit 0.05 +! random n *! flit 0.3 in
  let metalness := flit 0.7 +! random (n + 1) *! flit 0.3 in
  let pos := ((random (n + 2) -! flit 0.5) *! flit 6,
              flit 15 +! random (n + 3) *! flit 25,
              (random (n + 4) -! flit 0.5) *! flit 6) in
  (mkMesh (initial_color i) roughness metalness pos,
   mkInit pos (flit 0, flit 0, flit 0) (flit 1.0)).

(** [for (let i = 0; i < sphereCount; i++)], from sphere [i] on, [count]
    spheres to go. *)
Fixpoint populate (count i n : nat) : list Mesh * list (BodyInit F) * nat :=
  match count with
  | O => ([], [], n)
  | S count' =>
      let '(mesh, data) := initial_sphere i n in
      let '(meshes, initialData, n') := populate count' (S i) (n + 5) in
      (mesh :: meshes, data :: initialData, n')
  end.

Record View : Type := mkView {
  meshesRef : list Mesh;
  posted : list (Msg F);       (* worker.postMessage calls, oldest first *)
  main_random_calls : nat
}.

(** The effect: 35 spheres, the INIT message, and the first call of
    [animate], which posts a STEP. *)
Definition mount : View :=
  let '(meshes, initialData, n) := populate 35 0 0 in
  mkView meshes [INIT initialData; STEP (Some (flit 1.0))] n.

(** [animate]: every frame posts [{ type: 'STEP', payload: { dt: 1.0 } }]. *)
Definition animate (v : View) : View :=
  mkView (meshesRef v) (posted v ++ [STEP (Some (flit 1.0))]) (main_random_calls v).

Definition spawnParticle (v : View) : View :=
  let n := main_random_calls v in
  let color := HSL (random n) (flit 0.7) (flit 0.5) in
  let roughness := flit 0.1 +! random (n + 1) *! flit 0.4 in
  let metalness := flit 0.4 +! random (n + 2) *! flit 0.6 in
  let pos := ((random (n + 3) -! flit 0.5) *! flit 2,
              flit 25,
              (random (n + 4) -! flit 0.5) *! flit 2) in
  let mesh := mkMesh color roughness metalness pos in
  let payload :=
    mkInit pos
           ((random (n + 5) -! flit 0.5) *! flit 0.1,
            flit (-0.1),
            (random (n + 6) -! flit 0.5) *! flit 0.1)
           (flit 1.0) in
  mkView (meshesRef v ++ [mesh]) (posted v ++ [SPAWN payload]) (n + 7).


Definition triggerExplosion (v : View) : View :=
  mkView (meshesRef v) (posted v ++ [@EXPLOSION F]) (main_random_calls v).

Definition resetState (v : View) : View :=
  mkView (firstn 35 (meshesRef v)) (posted v ++ [@RESET F None])
         (main_random_calls v).

(** What happens on the page after the effect: a frame or a button. *)
Inductive Event : Type := Frame | SpawnClick | ExplosionClick | ResetClick.

Definition handle (v : View) (e : Event) : View :=
  match e with
  | Frame => animate v
  | SpawnClick => spawnParticle v
  | ExplosionClick => triggerExplosion v
  | ResetClick => resetState v
  end.

Definition play (events : list Event) : View := fold_left handle events mount.

(** [worker.onmessage] of the component, for an UPDATE message:
    [count = Math.min(meshes.length, positions.length / 3)], and the loop
    over [i < count].  The integers below [positions.length / 3] are those
    below its ceiling.  The result is [None] when a coordinate read is past
    the end of [positions]: an [undefined] then reaches three.js, whose
    treatment of it is not this code's. *)
Fixpoint replace_nth (n : nat) (m : Mesh) (meshes : list Mesh) : list Mesh :=
  match meshes, n with
  | [], _ => []
  | _ :: rest, O => m :: rest
  | m0 :: rest, S k => m0 :: replace_nth k m rest
  end.

Definition update_mesh (positions : list F) (i : nat) (meshes : list Mesh)
  : option (list Mesh) :=
  match nth_error meshes i,
        nth_error positions (i * 3 + 0),
        nth_error positions (i * 3 + 1),
        nth_error positions (i * 3 + 2) with
  | Some m, Some x, Some y, Some z => Some (replace_nth i (position_set m x y z) meshes)
  | _, _, _, _ => None
  end.

Definition on_update (positions : list F) (meshes : list Mesh)
  : option (list Mesh) :=
  let count := Nat.min (length meshes) ((length positions + 2) / 3) in
  fold_left (fun acc i =>
               match acc with
               | Some ms => update_mesh positions i ms
               | None => None
               end)
            (seq 0 count) (Some meshes).

End Component.

Arguments Color F : clear implicits.
Arguments Mesh F : clear implicits.
Arguments View F : clear implicits.

(** ** The frame-rate history of [PerformanceDashboard] *)

Section History.

Context {F : Type}.

(** An entry of [dataRef.current]: [{ time, value }]. *)
Record Sample : Type := mkSample { time : Z; value : F }.

(** The update of the history in the effect, at time [now = Date.now()]
    with the frame rate [fps]: push, then drop the oldest entry when more
    than 50 are held. *)
Definition record_sample (now : Z) (fps : F) (data : list Sample) : list Sample :=
  let data := data ++ [mkSample now fps] in
  if Nat.ltb 50 (length data) then tl data else data.

(** The history after the effect has run on each of [samples] in turn. *)
Definition record_all (samples : list (Z * F)) (data : list Sample) : list Sample :=
  fold_left (fun d s => record_sample (fst s) (snd s) d) samples data.

End History.

Arguments Sample F : clear implicits.

(** ** More vocabulary *)

Section MoreVocabulary.

Context {F : Type} {A : Arith F}.

(** Body [o] with [prevPos] brought to [pos]. *)
Definition settled (o : Body F) : Body F :=
  mkBody (pos o) (pos o) (vel o) (radius o) (invMass o).

(** No pair of the store passes the test of the pair loop. *)
Definition separated (objects : list (Body F)) : Prop :=
  forall i j a b,
    i < j -> nth_error objects i = Some a -> nth_error objects j = Some b ->
    penetrating a b = false.

Definition is_step (e : Msg F) : bool :=
  match e with STEP _ => true | _ => false end.

Definition is_update (r : Reply F) : bool :=
  match r with Some _ => true | None => false end.

(** The bodies a message carries. *)
Definition payload_of (e : Msg F) : list (BodyInit F) :=
  match e with
  | INIT payload => payload
  | SPAWN payload => [payload]
  | _ => []
  end.

(** Mesh [m] moved to where body [o] is, as the UPDATE handler reads it
    from the reply. *)
Definition moved_to (m : Mesh F) (o : Body F) : Mesh F :=
  position_set m (fround (get (pos o) i0)) (fround (get (pos o) i1))
               (fround (get (pos o) i2)).

(** The meshes with each one that has a body of the same index moved to
    it. *)
Fixpoint shown (objs : list (Body F)) (meshes : list (Mesh F)) : list (Mesh F) :=
  match meshes, objs with
  | m :: ms, o :: os => moved_to m o :: shown os ms
  | _, _ => meshes
  end.

(** The vertical velocity one prediction step gives a body at rest. *)
Definition rest_speed (h : F) : F := GRAVITY *! h *! DAMPING.

(** The number of UPDATE messages among replies, and of frames among the
    events of the page. *)
Definition updates (replies : list (Reply F)) : nat :=
  length (filter is_update replies).

Definition is_frame (e : Event) : bool :=
  match e with Frame => true | _ => false end.

Definition frames (events : list Event) : nat :=
  length (filter is_frame events).

End MoreVocabulary.


(** ** Concrete inputs, at the carrier [float] *)

Module Samples.

(** Sequences of [Math.random] results: a number of [[0, 1)] each. *)
Definition zeros : nat -> float := fun _ => 0%float.
Definition halves : nat -> float := fun _ => 0.5%float.
(** The largest binary64 number below 1. *)
Definition almost_ones : nat -> float := fun _ => 0x1.fffffffffffffp-1%float.

(** The initial population of [EngineView]: radius 1, at rest. *)
Definition sphere (x y z : float) : BodyInit float :=
  mkInit (x, y, z) (0, 0, 0)%float 1%float.

(** A sphere as INIT stores it. *)
Definition ball (x y z : float) : Body float := new_object (sphere x y z).

(** [n] spheres side by side on the floor, centers 2 apart from [x = -26]. *)
Definition row (n : nat) : list (BodyInit float) :=
  map (fun k => sphere (PrimFloat.sub (Float64.of_Z (2 * Z.of_nat k)) 26) 1 0)
      (seq 0 n).

(** Two bodies of radius 30 on the floor, centers 2 apart. *)
Definition wide_pair : list (BodyInit float) :=
  [mkInit (-1, 30, 0)%float (0, 0, 0)%float 30%float;
   mkInit (1, 30, 0)%float (0, 0, 0)%float 30%float].

(** What [spawnParticle] posts when its random draws are 0.5. *)
Definition spawned : BodyInit float :=
  mkInit (0, 25, 0)%float (0, Float64.lit (-0.1), 0)%float 1%float.

(** Payloads with a radius that is not positive, and with a position that
    is not finite. *)
Definition radius_zero : BodyInit float :=
  mkInit (0, 5, 0)%float (0, 0, 0)%float 0%float.
Definition radius_negative : BodyInit float :=
  mkInit (0, 5, 0)%float (0, 0, 0)%float (-1)%float.
Definition position_nan : BodyInit float :=
  mkInit (nan, infinity, 0)%float (0, 0, 0)%float 1%float.

(** An INIT of one sphere followed by a SPAWN of each of them. *)
Definition invalid_spawns : list (Msg float) :=
  [INIT [sphere 0 5 0]; SPAWN radius_negative; SPAWN radius_zero;
   SPAWN position_nan].

(** A body at rest at [(x, 5, 0)] with radius 1 and the given inverse
    mass. *)
Definition resting (x m : float) : Body float :=
  mkBody (vec3 x 5 0)%float (vec3 x 5 0)%float (vec3 0 0 0)%float 1%float m.

(** A body of radius [Float64.lit 0.7] with its center on the floor. *)
Definition sunk : Body float :=
  mkBody (vec3 0 0 0)%float (vec3 0 0 0)%float (vec3 0 0 0)%float
         (Float64.lit 0.7) 1%float.


(** The same body as [sunk], moving along x. *)
Definition sliding : Body float :=
  mkBody (vec3 0 0 0)%float (vec3 0 0 0)%float (vec3 1 0 0)%float
         (Float64.lit 0.7) 1%float.

End Samples.

(** ** Concrete inputs, at the carrier [R] *)

Module ExactSamples.

(** A body at rest at [(x, 5, 0)] with radius 1 and inverse mass [m]. *)
Definition resting (x m : R) : Body R :=
  mkBody (vec3 x 5 0)%R (vec3 x 5 0)%R (vec3 0 0 0)%R 1%R m.

(** A fixed sequence of [Math.random] results. *)
Definition quarters : nat -> R := fun _ => (1 / 4)%R.

End ExactSamples.

(** ** Properties of the control flow, at every carrier *)

Section Structure.

Context {F : Type} {A : Arith F}.

Lemma predict_fields (h : F) (obj : Body F) :
  predict h obj =
  let v := predicted_vel h (vel obj) in
  {| pos := vec3 (fround (e0 (pos obj) +! e0 v *! h))
                 (fround (e1 (pos obj) +! e1 v *! h))
                 (fround (e2 (pos obj) +! e2 v *! h));
     prevPos := vec3 (fround (e0 (pos obj))) (fround (e1 (pos obj)))
                     (fround (e2 (pos obj)));
     vel := v;
     radius := radius obj;
     invMass := invMass obj |}.
Proof. reflexivity. Qed.

Lemma velocity_update_fields (h : F) (obj : Body F) :
  velocity_update h obj =
  {| pos := pos obj;
     prevPos := prevPos obj;
     vel := vec3 (snapped (fround ((e0 (pos obj) -! e0 (prevPos obj)) /! h)))
                 (snapped (fround ((e1 (pos obj) -! e1 (prevPos obj)) /! h)))
                 (snapped (fround ((e2 (pos obj) -! e2 (prevPos obj)) /! h)));
     radius := radius obj;
     invMass := invMass obj |}.
Proof.
  destruct obj as [p q v r m].
  unfold velocity_update, snap, snapped; cbn.
  destruct (fabs (fround ((e0 p -! e0 q) /! h)) <! flit 0.001); cbn;
    destruct (fabs (fround ((e1 p -! e1 q) /! h)) <! flit 0.001); cbn;
    destruct (fabs (fround ((e2 p -! e2 q) /! h)) <! flit 0.001); cbn;
    reflexivity.
Qed.

(** *** Lists under [update] *)

Lemma update_length (n : nat) (x : Body F) (l : list (Body F)) :
  length (update n x l) = length l.
Proof.
  revert n; induction l as [|o l IH]; intros [|n]; cbn; auto.
Qed.

Lemma update_map (T : Type) (g : Body F -> T) (n : nat) (x y : Body F)
      (l : list (Body F)) :
  nth_error l n = Some y -> g x = g y -> map g (update n x l) = map g l.
Proof.
  revert n; induction l as [|o l IH]; intros [|n]; cbn; try discriminate.
  - intros [= ->] ->; reflexivity.
  - intros Hn Hg; f_equal; eauto.
Qed.

Lemma nth_error_update_other (n k : nat) (x : Body F) (l : list (Body F)) :
  n <> k -> nth_error (update n x l) k = nth_error l k.
Proof.
  revert n k; induction l as [|o l IH]; intros [|n] [|k] Hne; cbn; auto.
  congruence.
Qed.

(** *** What the pair loop keeps *)

Lemma resolve_pair_frame (a b : Body F) :
  let a' := fst (resolve_pair a b) in
  let b' := snd (resolve_pair a b) in
  prevPos a' = prevPos a /\ vel a' = vel a /\ radius a' = radius a
  /\ invMass a' = invMass a
  /\ prevPos b' = prevPos b /\ vel b' = vel b /\ radius b' = radius b
  /\ invMass b' = invMass b.
Proof.
  unfold resolve_pair; cbn zeta.
  destruct (_ && _); cbn; repeat split; reflexivity.
Qed.

Lemma invMass_stable : pair_stable (@invMass F).
Proof. intros a b; pose proof (resolve_pair_frame a b); cbn in *; tauto. Qed.

Lemma radius_stable : pair_stable (@radius F).
Proof. intros a b; pose proof (resolve_pair_frame a b); cbn in *; tauto. Qed.

Lemma resolve_at_length (i j : nat) (l : list (Body F)) :
  length (resolve_at i j l) = length l.
Proof.
  unfold resolve_at.
  destruct (nth_error l i); [destruct (nth_error l j)|]; auto.
  destruct (resolve_pair _ _); now rewrite !update_length.
Qed.

Lemma resolve_at_map (T : Type) (g : Body F -> T) (i j : nat) (l : list (Body F)) :
  pair_stable g -> i <> j -> map g (resolve_at i j l) = map g l.
Proof.
  intros Hg Hij; unfold resolve_at.
  destruct (nth_error l i) as [a|] eqn:Ha; [|reflexivity].
  destruct (nth_error l j) as [b|] eqn:Hb; [|reflexivity].
  destruct (Hg a b) as [Ga Gb].
  destruct (resolve_pair a b) as [a' b']; cbn in Ga, Gb.
  rewrite (update_map g j b' (y := b)); auto.
  - eapply update_map; eauto.
  - rewrite nth_error_update_other; auto.
Qed.

Lemma inner_fold_length (i : nat) (js : list nat) (l : list (Body F)) :
  length (fold_left (fun objs j => resolve_at i j objs) js l) = length l.
Proof.
  revert l; induction js as [|j js IH]; intros l; cbn; auto.
  now rewrite IH, resolve_at_length.
Qed.

Lemma inner_fold_map (T : Type) (g : Body F -> T) (i : nat) (js : list nat)
      (l : list (Body F)) :
  pair_stable g -> Forall (fun j => i <> j) js ->
  map g (fold_left (fun objs j => resolve_at i j objs) js l) = map g l.
Proof.
  intros Hg; revert l; induction js as [|j js IH]; intros l Hjs; cbn; auto.
  inversion Hjs; subst.
  rewrite IH by assumption. now apply resolve_at_map.
Qed.

Lemma inner_loop_length (i : nat) (l : list (Body F)) :
  length (inner_loop i l) = length l.
Proof. apply inner_fold_length. Qed.

Lemma inner_loop_map (T : Type) (g : Body F -> T) (i : nat) (l : list (Body F)) :
  pair_stable g -> map g (inner_loop i l) = map g l.
Proof.
  intros Hg; apply inner_fold_map; auto.
  apply Forall_forall; intros j Hj; apply in_seq in Hj; lia.
Qed.

Lemma outer_fold_length (ixs : list nat) (l : list (Body F)) :
  length (fold_left (fun objs i => inner_loop i objs) ixs l) = length l.
Proof.
  revert l; induction ixs as [|i ixs IH]; intros l; cbn; auto.
  now rewrite IH, inner_loop_length.
Qed.

Lemma outer_fold_map (T : Type) (g : Body F -> T) (ixs : list nat) (l : list (Body F)) :
  pair_stable g ->
  map g (fold_left (fun objs i => inner_loop i objs) ixs l) = map g l.
Proof.
  intros Hg; revert l; induction ixs as [|i ixs IH]; intros l; cbn; auto.
  now rewrite IH, inner_loop_map.
Qed.

Lemma particle_constraints_length (l : list (Body F)) :
  length (particle_constraints l) = length l.
Proof. apply outer_fold_length. Qed.

Lemma particle_constraints_map (T : Type) (g : Body F -> T) (l : list (Body F)) :
  pair_stable g -> map g (particle_constraints l) = map g l.
Proof. intros Hg; now apply outer_fold_map. Qed.

(** *** One pair resolution *)

Lemma resolve_pair_hit (a b : Body F) :
  penetrating a b = true ->
  resolve_pair a b =
  (pushed_back a (normal_of a b) (corr_of a a b),
   pushed_on b (normal_of a b) (corr_of b a b)).
Proof.
  unfold penetrating, distSq_of, minDist_of. intros Hp.
  unfold resolve_pair. cbn zeta. rewrite Hp. reflexivity.
Qed.

Lemma resolve_pair_miss (a b : Body F) :
  penetrating a b = false -> resolve_pair a b = (a, b).
Proof.
  unfold penetrating, distSq_of, minDist_of. intros Hp.
  unfold resolve_pair. cbn zeta. rewrite Hp. reflexivity.
Qed.



(** *** The pairs the nested loops visit *)

Lemma in_pairs (n i j : nat) : In (i, j) (pairs n) <-> i < j < n.
Proof.
  unfold pairs. rewrite in_flat_map. split.
  - intros (k & Hk & Hin). apply in_map_iff in Hin as (j' & [= -> ->] & Hj).
    apply in_seq in Hk, Hj. lia.
  - intros Hij. exists i. split; [apply in_seq; lia|].
    apply in_map. apply in_seq. lia.
Qed.


Lemma fold_left_flat_map (X Y Z : Type) (f : X -> Z -> X) (g : Y -> list Z)
      (ys : list Y) (x : X) :
  fold_left f (flat_map g ys) x = fold_left (fun a y => fold_left f (g y) a) ys x.
Proof.
  revert x; induction ys as [|y ys IH]; intros x; cbn; auto.
  now rewrite fold_left_app, IH.
Qed.

Lemma fold_left_map (X Y Z : Type) (f : X -> Z -> X) (g : Y -> Z)
      (ys : list Y) (x : X) :
  fold_left f (map g ys) x = fold_left (fun a y => f a (g y)) ys x.
Proof. revert x; induction ys as [|y ys IH]; intros x; cbn; auto. Qed.

Lemma outer_fold_fixed_length (n : nat) (ixs : list nat) (l : list (Body F)) :
  length l = n ->
  fold_left (fun objs i => inner_loop i objs) ixs l =
  fold_left (fun objs i =>
               fold_left (fun objs j => resolve_at i j objs)
                         (seq (S i) (n - S i)) objs) ixs l.
Proof.
  revert l; induction ixs as [|i ixs IH]; intros l Hl; cbn; auto.
  rewrite IH by (now rewrite inner_loop_length).
  unfold inner_loop. now rewrite Hl.
Qed.

(** The pair loop resolves each pair [i < j] of indices once, in the
    order of [pairs]. *)
Lemma particle_constraints_pairs (l : list (Body F)) :
  particle_constraints l =
  fold_left (fun objs ij => resolve_at (fst ij) (snd ij) objs)
            (pairs (length l)) l.
Proof.
  unfold particle_constraints, pairs.
  rewrite (outer_fold_fixed_length (n := length l)) by reflexivity.
  rewrite fold_left_flat_map.
  generalize (length l) as n. intros n.
  generalize (seq 0 n) as ixs. intros ixs. revert l.
  induction ixs as [|i ixs IH]; intros l; cbn; auto.
  rewrite fold_left_map. cbn. apply IH.
Qed.

(** *** What the environment pass establishes *)

(** After the pass each clamp test is false on the body, or the coordinate
    is the value the clamp stored. *)
Lemma environment_tests (obj : Body F) :
  ((e1 (pos (environment obj)) <! radius (environment obj)) = false
   \/ e1 (pos (environment obj)) = fround (radius obj))
  /\ ((fabs (e0 (pos (environment obj))) >! WORLD_SIZE) = false
      \/ e0 (pos (environment obj))
         = fround (fsign (e0 (pos obj)) *! WORLD_SIZE))
  /\ ((fabs (e2 (pos (environment obj))) >! WORLD_SIZE) = false
      \/ e2 (pos (environment obj))
         = fround (fsign (e2 (pos obj)) *! WORLD_SIZE)).
Proof.
  unfold environment, boundary_constraint, floor_constraint.
  destruct (get (pos obj) i1 <! radius obj) eqn:Ey; cbn;
    destruct (fabs (e0 (pos obj)) >! WORLD_SIZE) eqn:Ex; cbn;
    destruct (fabs (e2 (pos obj)) >! WORLD_SIZE) eqn:Ez; cbn;
    auto.
Qed.

(** *** What a whole STEP keeps *)

Lemma environment_frame (obj : Body F) :
  prevPos (environment obj) = prevPos obj
  /\ radius (environment obj) = radius obj
  /\ invMass (environment obj) = invMass obj.
Proof.
  unfold environment, boundary_constraint, floor_constraint.
  destruct (get (pos obj) i1 <! radius obj); cbn;
    repeat match goal with |- context [if ?c then _ else _] => destruct c; cbn end;
    auto.
Qed.

Lemma map_map_stable (T : Type) (g : Body F -> T) (f : Body F -> Body F)
      (l : list (Body F)) :
  (forall o, g (f o) = g o) -> map g (map f l) = map g l.
Proof. intros Hf; rewrite map_map; apply map_ext; auto. Qed.

Lemma invMass_step_stable : step_stable (@invMass F).
Proof.
  split; [apply invMass_stable|]. split; [reflexivity|].
  split; [intros o; apply environment_frame|].
  intros h o; now rewrite velocity_update_fields.
Qed.

Lemma radius_step_stable : step_stable (@radius F).
Proof.
  split; [apply radius_stable|]. split; [reflexivity|].
  split; [intros o; apply environment_frame|].
  intros h o; now rewrite velocity_update_fields.
Qed.

Lemma iter_invariant (X : Type) (P : X -> Prop) (f : X -> X) (n : nat) (x : X) :
  (forall y, P y -> P (f y)) -> P x -> P (Nat.iter n f x).
Proof.
  intros Hf Hx; induction n as [|n IH]; [exact Hx|].
  change (Nat.iter (S n) f x) with (f (Nat.iter n f x)); auto.
Qed.

Lemma solver_iteration_length (l : list (Body F)) :
  length (solver_iteration l) = length l.
Proof.
  unfold solver_iteration. now rewrite particle_constraints_length, length_map.
Qed.

Lemma solver_iterations_length (n : nat) (l : list (Body F)) :
  length (Nat.iter n solver_iteration l) = length l.
Proof.
  apply iter_invariant with (P := fun x => length x = length l); auto.
  intros y Hy. now rewrite solver_iteration_length.
Qed.

Lemma substep_length (h : F) (l : list (Body F)) :
  length (substep h l) = length l.
Proof.
  unfold substep. now rewrite length_map, solver_iterations_length, length_map.
Qed.

Lemma step_length (dt : option F) (l : list (Body F)) :
  length (step dt l) = length l.
Proof.
  apply iter_invariant with (P := fun x => length x = length l); auto.
  intros y Hy. now rewrite substep_length.
Qed.

Lemma solver_iterations_map (T : Type) (g : Body F -> T) (n : nat)
      (l : list (Body F)) :
  step_stable g -> map g (Nat.iter n solver_iteration l) = map g l.
Proof.
  intros (Hp & _ & He & _).
  apply iter_invariant with (P := fun x => map g x = map g l); auto.
  intros y Hy. unfold solver_iteration.
  rewrite particle_constraints_map by assumption.
  rewrite map_map_stable by assumption. exact Hy.
Qed.

Lemma substep_map (T : Type) (g : Body F -> T) (h : F) (l : list (Body F)) :
  step_stable g -> map g (substep h l) = map g l.
Proof.
  intros Hg. pose proof Hg as (_ & Hpr & _ & Hv). unfold substep.
  rewrite map_map_stable by auto.
  rewrite solver_iterations_map by assumption.
  now apply map_map_stable.
Qed.

Lemma step_map (T : Type) (g : Body F -> T) (dt : option F) (l : list (Body F)) :
  step_stable g -> map g (step dt l) = map g l.
Proof.
  intros Hg.
  apply iter_invariant with (P := fun x => map g x = map g l); auto.
  intros y Hy. now rewrite substep_map.
Qed.

(** *** A store without a penetrating pair *)

Lemma update_same (n : nat) (x : Body F) (l : list (Body F)) :
  nth_error l n = Some x -> update n x l = l.
Proof.
  revert n; induction l as [|o l IH]; intros [|n] H; try discriminate; cbn.
  - now injection H as ->.
  - f_equal. now apply IH.
Qed.

Lemma resolve_at_separated (i j : nat) (l : list (Body F)) :
  separated l -> i < j -> resolve_at i j l = l.
Proof.
  intros Hsep Hij. unfold resolve_at.
  destruct (nth_error l i) as [a|] eqn:Ha; [|reflexivity].
  destruct (nth_error l j) as [b|] eqn:Hb; [|reflexivity].
  rewrite (@resolve_pair_miss a b (Hsep i j a b Hij Ha Hb)).
  rewrite (@update_same i a l Ha). now apply update_same.
Qed.

Lemma particle_constraints_separated (objs : list (Body F)) :
  separated objs -> particle_constraints objs = objs.
Proof.
  intros Hsep. rewrite particle_constraints_pairs.
  assert (Hpairs : forall ps : list (nat * nat),
             Forall (fun ij => fst ij < snd ij) ps ->
             fold_left (fun l ij => resolve_at (fst ij) (snd ij) l) ps objs = objs).
  { induction ps as [|[i j] ps IH]; intros Hps; [reflexivity|].
    inversion Hps; subst. cbn [fold_left fst snd] in *.
    rewrite resolve_at_separated by assumption. now apply IH. }
  apply Hpairs. apply Forall_forall. intros [i j] Hin.
  apply in_pairs in Hin. cbn. lia.
Qed.

(** *** The environment pass in closed form *)

Lemma environment_fields (o : Body F) :
  pos (environment o)
  = vec3 (if fabs (e0 (pos o)) >! WORLD_SIZE
          then fround (fsign (e0 (pos o)) *! WORLD_SIZE) else e0 (pos o))
         (if e1 (pos o) <! radius o then fround (radius o) else e1 (pos o))
         (if fabs (e2 (pos o)) >! WORLD_SIZE
          then fround (fsign (e2 (pos o)) *! WORLD_SIZE) else e2 (pos o))
  /\ prevPos (environment o) = prevPos o
  /\ radius (environment o) = radius o
  /\ invMass (environment o) = invMass o.
Proof.
  unfold environment, boundary_constraint, floor_constraint.
  destruct o as [[x y z] q v r m]. cbn [pos get e0 e1 e2 radius].
  destruct (y <! r); cbn;
    destruct (fabs x >! WORLD_SIZE); cbn;
    destruct (fabs z >! WORLD_SIZE); cbn; auto.
Qed.

Lemma environment_unchanged (o : Body F) :
  (e1 (pos o) <! radius o) = false ->
  (fabs (e0 (pos o)) >! WORLD_SIZE) = false ->
  (fabs (e2 (pos o)) >! WORLD_SIZE) = false ->
  environment o = o.
Proof.
  intros Hy Hx Hz. unfold environment, boundary_constraint, floor_constraint.
  cbn [get]. now rewrite Hy, Hx, Hz.
Qed.

Lemma environment_floor (x y z vx vy vz r m : F) (q : Vec3 F) :
  (y <! r) = true -> (fabs x >! WORLD_SIZE) = false ->
  (fabs z >! WORLD_SIZE) = false ->
  environment (mkBody (vec3 x y z) q (vec3 vx vy vz) r m)
  = mkBody (vec3 x (fround r) z) q
           (vec3 (fround (vx *! FRICTION)) vy (fround (vz *! FRICTION))) r m.
Proof.
  intros Hy Hx Hz. unfold environment, boundary_constraint, floor_constraint.
  cbn [pos get e0 e1 e2 radius]. rewrite Hy.
  unfold pos_put, vel_put, put.
  cbn [pos vel prevPos radius invMass get e0 e1 e2]. rewrite Hx.
  cbn [pos vel prevPos radius invMass get e0 e1 e2]. now rewrite Hz.
Qed.

Lemma substep_single (h : F) (o : Body F) :
  substep h [o]
  = [velocity_update h
       (environment (environment (environment (environment (predict h o)))))].
Proof. reflexivity. Qed.

Lemma environment_clamped (o : Body F) : clamped (environment o).
Proof.
  destruct (environment_fields o) as (Hp & _ & Hr & _).
  unfold clamped, floor_clamped, wall_clamped. rewrite Hp, Hr. cbn [e0 e1 e2].
  split; [|split].
  - destruct (e1 (pos o) <! radius o) eqn:E; auto.
  - destruct (fabs (e0 (pos o)) >! WORLD_SIZE) eqn:E; eauto.
  - destruct (fabs (e2 (pos o)) >! WORLD_SIZE) eqn:E; eauto.
Qed.







(** When no pair of the state the last environment pass leaves passes
    the test, the STEP returns the positions of that state.  (The
    hypothesis is kept out of the search for implicit arguments, which
    would unfold the twelve substeps in it.) *)
Unset Implicit Arguments.


Set Implicit Arguments.



(** *** The loops that draw random numbers *)

Variable random : nat -> F.

Lemma explosion_calls (n : nat) (l : list (Body F)) :
  snd (explosion random n l) = n + 3 * length l.
Proof.
  revert n; induction l as [|o l IH]; intros n; cbn; [lia|].
  specialize (IH (n + 3)). destruct (explosion random (n + 3) l); cbn in *. lia.
Qed.

Lemma explosion_nth (n k : nat) (l : list (Body F)) :
  nth_error (fst (explosion random n l)) k =
  option_map (explode_one random (n + 3 * k)) (nth_error l k).
Proof.
  revert n k; induction l as [|o l IH]; intros n k.
  - destruct k; reflexivity.
  - cbn [explosion]. specialize (IH (n + 3)).
    destruct (explosion random (n + 3) l) as [rest n']. cbn [fst] in *.
    destruct k as [|k]; cbn [nth_error option_map].
    + replace (n + 3 * 0) with n by lia. reflexivity.
    + rewrite IH. replace (n + 3 * S k) with (n + 3 + 3 * k) by lia. reflexivity.
Qed.

Lemma explosion_length (n : nat) (l : list (Body F)) :
  length (fst (explosion random n l)) = length l.
Proof.
  revert n; induction l as [|o l IH]; intros n; cbn; auto.
  specialize (IH (n + 3)). destruct (explosion random (n + 3) l); cbn in *. lia.
Qed.

Lemma respawn_calls (n : nat) (l : list (Body F)) :
  snd (respawn random n l) = n + 3 * length l.
Proof.
  revert n; induction l as [|o l IH]; intros n; cbn; [lia|].
  specialize (IH (n + 3)). destruct (respawn random (n + 3) l); cbn in *. lia.
Qed.

Lemma respawn_nth (n k : nat) (l : list (Body F)) :
  nth_error (fst (respawn random n l)) k =
  option_map (respawn_one random (n + 3 * k)) (nth_error l k).
Proof.
  revert n k; induction l as [|o l IH]; intros n k.
  - destruct k; reflexivity.
  - cbn [respawn]. specialize (IH (n + 3)).
    destruct (respawn random (n + 3) l) as [rest n']. cbn [fst] in *.
    destruct k as [|k]; cbn [nth_error option_map].
    + replace (n + 3 * 0) with n by lia. reflexivity.
    + rewrite IH. replace (n + 3 * S k) with (n + 3 + 3 * k) by lia. reflexivity.
Qed.

Lemma respawn_length (n : nat) (l : list (Body F)) :
  length (fst (respawn random n l)) = length l.
Proof.
  revert n; induction l as [|o l IH]; intros n; cbn; auto.
  specialize (IH (n + 3)). destruct (respawn random (n + 3) l); cbn in *. lia.
Qed.

Lemma explosion_map (T : Type) (g : Body F -> T) (n : nat) (l : list (Body F)) :
  (forall k o, g (explode_one random k o) = g o) ->
  map g (fst (explosion random n l)) = map g l.
Proof.
  intros Hg; revert n; induction l as [|o l IH]; intros n; cbn; auto.
  specialize (IH (n + 3)). destruct (explosion random (n + 3) l); cbn in *.
  now rewrite Hg, IH.
Qed.

Lemma respawn_map (T : Type) (g : Body F -> T) (n : nat) (l : list (Body F)) :
  (forall k o, g (respawn_one random k o) = g o) ->
  map g (fst (respawn random n l)) = map g l.
Proof.
  intros Hg; revert n; induction l as [|o l IH]; intros n; cbn; auto.
  specialize (IH (n + 3)). destruct (respawn random (n + 3) l); cbn in *.
  now rewrite Hg, IH.
Qed.

End Structure.

(** ** Exact arithmetic: the carrier [R] *)

Ltac exact_literals :=
  cbv [WORLD_SIZE GRAVITY DAMPING FRICTION flit fadd fsub fmul fdiv fsqrt
       fabs fsign fround ArithR Q2R Qnum Qden] in *;
  rewrite ?Rinv_1, ?Rmult_1_r in *.

Section ExactArithmetic.

Local Open Scope R_scope.

Lemma ltb_lt (a b : R) : (a <! b) = true <-> a < b.
Proof. cbn; unfold Exact.ltb; destruct (Rlt_dec a b); split; auto; discriminate. Qed.

Lemma ltb_ge (a b : R) : (a <! b) = false <-> b <= a.
Proof.
  cbn; unfold Exact.ltb; destruct (Rlt_dec a b); split; auto; try discriminate; lra.
Qed.

Lemma truthy_nonzero (d : R) : ftruthy d = true <-> d <> 0.
Proof.
  cbn; unfold Exact.truthy; destruct (Req_dec_T d 0); split; auto;
    try discriminate; try contradiction.
Qed.

Lemma contained_exact (eps : R) (b : Body R) :
  contained eps b <->
  radius b - eps <= e1 (pos b)
  /\ Rabs (e0 (pos b)) <= 25 + eps /\ Rabs (e2 (pos b)) <= 25 + eps.
Proof.
  unfold contained, outside. rewrite !orb_false_iff, !ltb_ge.
  exact_literals. intuition lra.
Qed.

Lemma sign_clamp (x : R) : 25 < Rabs x -> Rabs (Exact.sign x * 25) = 25.
Proof.
  intros Hx. unfold Exact.sign.
  destruct (Rlt_dec 0 x); [|destruct (Rlt_dec x 0)].
  - rewrite Rabs_pos_eq; lra.
  - replace (-1 * 25) with (- (25)) by ring. rewrite Rabs_Ropp, Rabs_pos_eq; lra.
  - assert (x = 0) by lra. subst. rewrite Rabs_R0 in Hx. lra.
Qed.

Lemma floor_constraint_exact (obj : Body R) :
  radius (floor_constraint obj) = radius obj
  /\ radius obj <= e1 (pos (floor_constraint obj))
  /\ e0 (pos (floor_constraint obj)) = e0 (pos obj)
  /\ e2 (pos (floor_constraint obj)) = e2 (pos obj).
Proof.
  unfold floor_constraint.
  destruct (get (pos obj) i1 <! radius obj) eqn:E; cbn.
  - repeat split; lra.
  - apply ltb_ge in E. cbn in E. repeat split; lra.
Qed.

Lemma boundary_constraint_exact (i : axis) (obj : Body R) :
  radius (boundary_constraint i obj) = radius obj
  /\ Rabs (get (pos (boundary_constraint i obj)) i) <= 25
  /\ (forall j, j <> i ->
      get (pos (boundary_constraint i obj)) j = get (pos obj) j).
Proof.
  unfold boundary_constraint.
  destruct (fabs (get (pos obj) i) >! WORLD_SIZE) eqn:E.
  - apply ltb_lt in E. exact_literals.
    assert (Hc := @sign_clamp (get (pos obj) i)).
    split; [reflexivity|]. split.
    + destruct i; cbn in *; rewrite Hc; lra.
    + intros j Hj. destruct i, j; cbn; congruence.
  - apply ltb_ge in E. exact_literals.
    split; [reflexivity|]. split; [lra|auto].
Qed.

Lemma environment_contained (obj : Body R) :
  contained (flit 0) (environment obj) /\ radius (environment obj) = radius obj.
Proof.
  unfold environment.
  destruct (floor_constraint_exact obj) as (Fr & Fy & Fx & Fz).
  destruct (boundary_constraint_exact i0 (floor_constraint obj)) as (Xr & Xa & Xo).
  destruct (boundary_constraint_exact i2 (boundary_constraint i0 (floor_constraint obj)))
    as (Zr & Za & Zo).
  split; [|congruence].
  apply contained_exact. rewrite Zr, Xr, Fr.
  assert (Hy : e1 (pos (boundary_constraint i2 (boundary_constraint i0 (floor_constraint obj))))
               = e1 (pos (floor_constraint obj))).
  { etransitivity; [apply (Zo i1) | apply (Xo i1)]; discriminate. }
  assert (Hx : e0 (pos (boundary_constraint i2 (boundary_constraint i0 (floor_constraint obj))))
               = e0 (pos (boundary_constraint i0 (floor_constraint obj)))).
  { apply (Zo i0). discriminate. }
  cbn [get] in *. rewrite Hy, Hx. exact_literals. repeat split; lra.
Qed.

Lemma particle_constraints_single (obj : Body R) :
  particle_constraints [obj] = [obj].
Proof. reflexivity. Qed.

(** *** One pair resolution in exact arithmetic *)

Lemma penetrating_exact (a b : Body R) :
  penetrating a b = true <->
  distSq_of a b < minDist_of a b * minDist_of a b /\ 0.00001 < distSq_of a b.
Proof.
  unfold penetrating. rewrite andb_true_iff, !ltb_lt.
  exact_literals. intuition lra.
Qed.


Lemma dist_square (a b : Body R) :
  0 <= distSq_of a b -> dist_of a b * dist_of a b = distSq_of a b.
Proof. intros H. unfold dist_of. cbn [fsqrt ArithR]. now apply sqrt_sqrt. Qed.

Lemma unit_normal (a b : Body R) :
  0 < distSq_of a b ->
  normal_of a b i0 * normal_of a b i0 + normal_of a b i1 * normal_of a b i1
  + normal_of a b i2 * normal_of a b i2 = 1.
Proof.
  intros H. assert (Hd := @dist_square a b (Rlt_le _ _ H)).
  unfold normal_of. revert H Hd. generalize (dist_of a b) as d.
  unfold distSq_of. cbn [get]. exact_literals. intros d H Hd.
  assert (d <> 0) by nra.
  field_simplify_eq; auto. nra.
Qed.



Lemma corr_half (a b : Body R) :
  invMass a = 1 -> invMass b = 1 ->
  corr_of a a b = overlap_of a b / 2 /\ corr_of b a b = overlap_of a b / 2.
Proof.
  intros Ha Hb. unfold corr_of. exact_literals. rewrite Ha, Hb. split; field.
Qed.





(** *** The velocity snap in exact arithmetic *)

Lemma snapped_small (v : R) : Rabs v < 0.001 -> snapped v = 0.
Proof.
  intros H. unfold snapped.
  replace (fabs v <! flit 0.001) with true.
  - exact_literals. lra.
  - symmetry. apply ltb_lt. exact_literals. lra.
Qed.

Lemma snapped_large (v : R) : 0.001 <= Rabs v -> snapped v = v.
Proof.
  intros H. unfold snapped.
  replace (fabs v <! flit 0.001) with false; [reflexivity|].
  symmetry. apply ltb_ge. exact_literals. lra.
Qed.

End ExactArithmetic.

(** ** Binary arithmetic: the carrier [float]

    Laws of the binary64 operations that hold for every number, NaN and
    the infinities included, proved by cases on the number through the
    specification [Prim2SF] of the primitive operations. *)

Section BinaryArithmetic.

Lemma float_ltb_irrefl (x : float) : PrimFloat.ltb x x = false.
Proof.
  rewrite ltb_spec.
  destruct (Prim2SF x) as [s|s| |s m e]; try (destruct s; reflexivity);
    try reflexivity.
  unfold SFltb, SFcompare. rewrite Z.compare_refl.
  assert (H : Pos.compare_cont Eq m m = Eq) by apply Pos.compare_refl.
  rewrite H. destruct s; reflexivity.
Qed.

(** A coordinate a wall test is true on is neither zero nor NaN, so its
    [Math.sign] is 1 or -1. *)
Lemma sign_beyond_wall (x : float) :
  (fabs x >! WORLD_SIZE) = true -> fsign x = 1%float \/ fsign x = (-1)%float.
Proof.
  cbn [fabs fltb fsign ArithFloat]. unfold Float64.sign.
  rewrite !ltb_spec, abs_spec.
  replace (Prim2SF WORLD_SIZE) with (Prim2SF 25%float) by (vm_compute; reflexivity).
  change (Prim2SF PrimFloat.zero) with (S754_zero false).
  destruct (Prim2SF x) as [s|s| |s m e]; cbn; try discriminate; intros _;
    destruct s; cbn; auto.
Qed.

(** So a wall clamp stores 25 or -25, both binary32 numbers, and the wall
    test is false on what it stored. *)
Lemma wall_clamped_float (x : float) :
  wall_clamped x -> (fabs x >! WORLD_SIZE) = false.
Proof.
  intros [H|(x0 & H0 & ->)]; [exact H|].
  destruct (@sign_beyond_wall x0 H0) as [-> | ->]; vm_compute; reflexivity.
Qed.

Lemma clamped_float (b : Body float) : clamped b -> contained_as_stored b.
Proof.
  intros (Hy & Hx & Hz). split; [|split; [exact Hy|]].
  - split; now apply wall_clamped_float.
  - intros Hr. destruct Hy as [Hy|Hy]; [exact Hy|]. now rewrite Hy.
Qed.

Lemma environment_within_walls (o : Body float) : within_walls (environment o).
Proof. apply clamped_float, environment_clamped. Qed.

(** When the binary32 rounding of the radius is not below the radius, no
    test is true after an environment pass, and a second pass does
    nothing. *)
Lemma environment_twice_float (o : Body float) :
  (fround (radius o) <! radius o) = false ->
  environment (environment o) = environment o.
Proof.
  intros Hr.
  destruct (clamped_float (environment_clamped o)) as ((Hx & Hz) & _ & Hy).
  destruct (environment_fields o) as (_ & _ & Er & _).
  apply environment_unchanged; [|exact Hx|exact Hz].
  apply Hy. now rewrite Er.
Qed.

(** *** Adding zero, and the difference of a number with itself *)

Lemma float_of_zero (x : float) (s : bool) :
  Prim2SF x = S754_zero s -> x = if s then (-0)%float else 0%float.
Proof.
  intros H. rewrite <- (SF2Prim_Prim2SF x), H. now destruct s.
Qed.

(** [x + 0] is [x], except that [-0 + 0] is [0]. *)
Lemma float_add_zero (x : float) :
  PrimFloat.add x 0 = x \/ (x = (-0)%float /\ PrimFloat.add x 0 = 0%float).
Proof.
  destruct (Prim2SF x) as [s|s| |s m e] eqn:E.
  - destruct s.
    + right. apply float_of_zero in E. cbn in E. subst x. split; reflexivity.
    + left. apply float_of_zero in E. cbn in E. subst x. reflexivity.
  - left. apply Prim2SF_inj. rewrite add_spec, E. reflexivity.
  - left. apply Prim2SF_inj. rewrite add_spec, E. reflexivity.
  - left. apply Prim2SF_inj. rewrite add_spec, E. reflexivity.
Qed.

Lemma float_is_nan (x : float) :
  PrimFloat.is_nan x = false -> Prim2SF x <> S754_nan.
Proof.
  unfold PrimFloat.is_nan. rewrite eqb_spec. intros H E. rewrite E in H.
  discriminate.
Qed.

Lemma SFsub_diag (s : bool) (m : positive) (e : Z) :
  SF64sub (S754_finite s m e) (S754_finite s m e) = S754_zero false.
Proof. unfold SF64sub, SFsub. rewrite Z.sub_diag. reflexivity. Qed.

(** For a number [x] no wall test is true on, [(x + 0) - x] is [0]. *)
Lemma float_settle (x : float) :
  PrimFloat.is_nan x = false -> (fabs x >! WORLD_SIZE) = false ->
  PrimFloat.sub (PrimFloat.add x 0) x = 0%float.
Proof.
  intros Hn Hw. apply float_is_nan in Hn.
  cbn [fabs fltb ArithFloat] in Hw. rewrite ltb_spec, abs_spec in Hw.
  replace (Prim2SF WORLD_SIZE) with (Prim2SF 25%float) in Hw
    by (vm_compute; reflexivity).
  apply Prim2SF_inj. rewrite sub_spec, add_spec.
  change (Prim2SF 0) with (S754_zero false).
  destruct (Prim2SF x) as [s|s| |s m e] eqn:E.
  - destruct s; reflexivity.
  - destruct s; discriminate.
  - contradiction.
  - cbn [SF64add SFadd]. apply SFsub_diag.
Qed.

Lemma float_add_zero_stored (x : float) :
  fround x = x -> fround (x +! 0%float) = x +! 0%float.
Proof.
  intros Hx. cbn [fadd ArithFloat].
  destruct (float_add_zero x) as [-> | [_ ->]]; [exact Hx|reflexivity].
Qed.

Lemma float_add_zero_walls (x : float) :
  (fabs x >! WORLD_SIZE) = false ->
  (fabs (x +! 0%float) >! WORLD_SIZE) = false.
Proof.
  intros Hx. cbn [fadd ArithFloat].
  destruct (float_add_zero x) as [-> | [_ ->]]; [exact Hx|reflexivity].
Qed.

Lemma float_add_zero_twice (x : float) :
  (x +! 0%float) +! 0%float = x +! 0%float.
Proof.
  cbn [fadd ArithFloat].
  destruct (float_add_zero x) as [H | [_ H]]; rewrite H; [exact H|reflexivity].
Qed.

Lemma float_add_zero_number (x : float) :
  PrimFloat.is_nan x = false -> PrimFloat.is_nan (x +! 0%float) = false.
Proof.
  intros Hx. cbn [fadd ArithFloat].
  destruct (float_add_zero x) as [-> | [_ ->]]; [exact Hx|reflexivity].
Qed.

(** *** A sphere of radius 1 at rest on the floor, with [dt = 1] *)

Lemma predict_on_floor (x z m : float) (q : Vec3 float) :
  exists y1 c2 : float,
    predict (substep_size (Some 1%float))
            (mkBody (vec3 x 1%float z) q (vec3 0 0 0)%float 1%float m)
    = mkBody (vec3 (fround (x +! 0%float)) y1 (fround (z +! 0%float)))
             (vec3 (fround x) 1%float (fround z))
             (vec3 0%float c2 0%float) 1%float m
    /\ (y1 <! 1%float) = true.
Proof.
  do 2 eexists. split.
  - rewrite predict_fields. unfold predicted_vel.
    cbn [pos vel e0 e1 e2 radius invMass prevPos].
    f_equal; f_equal; try (f_equal; vm_compute; reflexivity);
      try (vm_compute; reflexivity).
  - vm_compute. reflexivity.
Qed.

Lemma substep_on_floor_float (x z m : float) (q : Vec3 float) :
  fround x = x -> fround z = z ->
  PrimFloat.is_nan x = false -> PrimFloat.is_nan z = false ->
  (fabs x >! WORLD_SIZE) = false -> (fabs z >! WORLD_SIZE) = false ->
  substep (substep_size (Some 1%float))
          [mkBody (vec3 x 1%float z) q (vec3 0 0 0)%float 1%float m]
  = [mkBody (vec3 (x +! 0%float) 1%float (z +! 0%float)) (vec3 x 1%float z)
            (vec3 0 0 0)%float 1%float m].
Proof.
  intros Hfx Hfz Hnx Hnz Hwx Hwz.
  rewrite substep_single.
  destruct (predict_on_floor x z m q) as (y1 & c2 & -> & Hy1).
  rewrite (float_add_zero_stored Hfx), (float_add_zero_stored Hfz), Hfx, Hfz.
  rewrite (@environment_floor float _ _ _ _ _ _ _ _ _ _ Hy1
             (float_add_zero_walls Hwx) (float_add_zero_walls Hwz)).
  replace (fround 1%float) with 1%float by (vm_compute; reflexivity).
  replace (fround (0%float *! FRICTION)) with 0%float
    by (vm_compute; reflexivity).
  match goal with
  | |- context [environment (environment (environment ?b))] =>
      assert (Hu : environment b = b)
  end.
  { apply environment_unchanged; cbn [pos radius e0 e1 e2];
      [vm_compute; reflexivity| |]; now apply float_add_zero_walls. }
  rewrite !Hu.
  rewrite velocity_update_fields. cbn [pos prevPos e0 e1 e2 radius invMass].
  change (x +! 0%float -! x) with (PrimFloat.sub (PrimFloat.add x 0) x).
  change (z +! 0%float -! z) with (PrimFloat.sub (PrimFloat.add z 0) z).
  rewrite (float_settle Hnx Hwx), (float_settle Hnz Hwz).
  replace (snapped (fround (0%float /! substep_size (Some 1%float))))
    with 0%float by (vm_compute; reflexivity).
  replace (snapped (fround ((1%float -! 1%float) /! substep_size (Some 1%float))))
    with 0%float by (vm_compute; reflexivity).
  reflexivity.
Qed.

End BinaryArithmetic.

(** ** Concrete runs: the carrier [float] *)

Section FloatRuns.

Import Samples.

(** The literals of the source, as binary64 numbers. *)
Lemma float_literals :
  flit 0 = 0%float /\ flit 1 = 1%float /\ fround (flit 0) = 0%float
  /\ flit 1 /! (flit 1 +! flit 1) = 0.5%float
  /\ WORLD_SIZE = 25%float
  /\ (GRAVITY <! 0%float) = true.
Proof. vm_compute. repeat split; reflexivity. Qed.

(** The floor clamp stores the binary32 rounding of [radius]; for a radius
    such as 0.7, which rounds down, the clamped body is still below
    [radius] and the clamp fires again at the next iteration. *)
Lemma floor_clamp_rounds :
  (e1 (pos (environment sunk)) <! radius (environment sunk)) = true
  /\ outside 0%float (environment sunk) = true.
Proof. vm_compute. split; reflexivity. Qed.

(** Two bodies of radius 30 initialised on the floor two units apart:
    after one STEP with [dt = 1] the posted positions put them at [x = -30]
    and [x = 30], five units beyond the walls at [-25] and [25]: the last
    pair pass pushes them apart after the last clamp, and every later STEP
    ends the same way. *)
Lemma wide_pair_ends_beyond_the_walls :
  snd (run zeros [INIT wide_pair; STEP (Some 1%float)] start)
  = [None; Some [(-30)%float; 30%float; 0%float; 30%float; 30%float; 0%float]]
  /\ map (outside 4.5%float)
         (objects (fst (run zeros
                            [INIT wide_pair; STEP (Some 1%float);
                             STEP (Some 1%float); STEP (Some 1%float)] start)))
     = [true; true].
Proof. vm_compute. split; reflexivity. Qed.

(** Twenty-seven spheres of radius 1 in a row need 54 units, the world
    has 50: after a STEP the two at the ends are beyond the walls. *)
Lemma row_of_spheres_overflows :
  let objs := objects (fst (run zeros [INIT (row 27); STEP (Some 1%float)] start)) in
  map (outside (Float64.lit 0.05)) (firstn 1 objs ++ skipn 26 objs) = [true; true].
Proof. vm_compute. reflexivity. Qed.

(** Inverse masses 2 and 1, radius 1 each, centers 1 apart: the shares of
    the overlap are in the ratio 2 to 1 in binary arithmetic as well. *)
Lemma two_to_one_split :
  penetrating (resting 0 2) (resting 1 1) = true
  /\ corr_of (resting 0 2) (resting 0 2) (resting 1 1)
     = PrimFloat.mul 2 (corr_of (resting 1 1) (resting 0 2) (resting 1 1)).
Proof. vm_compute. split; reflexivity. Qed.

(** Equal inverse masses, radius 1 each, centers 1.5 apart: one resolution
    moves each body 0.25 away from the other. *)
Lemma symmetric_split :
  map (fun b => e0 (pos b))
      [fst (resolve_pair (resting 0 1) (resting 1.5 1));
       snd (resolve_pair (resting 0 1) (resting 1.5 1))]
  = [(-0.25)%float; 1.75%float].
Proof. vm_compute. reflexivity. Qed.

End FloatRuns.

(** ** The message handler, command by command *)

Lemma onmessage_reset (F : Type) (A : Arith F) (random : nat -> F)
      (payload : option nat) (w : Worker F) :
  onmessage random (@RESET F payload) w
  = (mkWorker (fst (reset random (random_calls w) (objects w)))
              (snd (reset random (random_calls w) (objects w))), None).
Proof.
  cbn [onmessage]. destruct (reset random (random_calls w) (objects w)).
  reflexivity.
Qed.

Lemma onmessage_explosion (F : Type) (A : Arith F) (random : nat -> F)
      (w : Worker F) :
  onmessage random (@EXPLOSION F) w
  = (mkWorker (fst (explosion random (random_calls w) (objects w)))
              (snd (explosion random (random_calls w) (objects w))), None).
Proof.
  cbn [onmessage]. destruct (explosion random (random_calls w) (objects w)).
  reflexivity.
Qed.

(** *** The inverse masses in the store *)

Lemma Forall_firstn (X : Type) (P : X -> Prop) (n : nat) (l : list X) :
  Forall P l -> Forall P (firstn n l).
Proof.
  revert l; induction n as [|n IH]; intros l Hl; [constructor|].
  destruct Hl; cbn [firstn]; constructor; auto.
Qed.

Lemma onmessage_invMass (F : Type) (A : Arith F) (random : nat -> F)
      (e : Msg F) (w : Worker F) :
  map (@invMass F) (objects (fst (onmessage random e w)))
  = match e with
    | INIT payload => map (fun _ => flit 1) payload
    | SPAWN _ => map (@invMass F) (objects w) ++ [flit 1]
    | RESET _ => firstn 35 (map (@invMass F) (objects w))
    | _ => map (@invMass F) (objects w)
    end.
Proof.
  destruct e as [payload|payload|dt| |payload| | | |]; try reflexivity.
  - cbn [onmessage fst objects]. unfold init. rewrite map_map. reflexivity.
  - cbn [onmessage fst objects]. unfold spawn. rewrite map_app. reflexivity.
  - cbn [onmessage fst objects]. apply step_map, invMass_step_stable.
  - rewrite onmessage_explosion. cbn [fst objects].
    now apply explosion_map.
  - rewrite onmessage_reset. cbn [fst objects]. unfold reset.
    rewrite respawn_map by reflexivity. now rewrite firstn_map.
Qed.

Lemma reachable_invMass (F : Type) (A : Arith F) (random : nat -> F)
      (w : Worker F) :
  reachable random w -> Forall (fun b => invMass b = flit 1) (objects w).
Proof.
  induction 1 as [|e w Hw IH]; [constructor|].
  apply (Forall_map (@invMass F) (fun m => m = flit 1)).
  apply (Forall_map (@invMass F) (fun m => m = flit 1)) in IH.
  rewrite onmessage_invMass. destruct e; auto.
  - apply Forall_map, Forall_forall. reflexivity.
  - apply Forall_app. split; [assumption|]. repeat constructor.
  - now apply Forall_firstn.
Qed.

(** ** The specification, statement by statement *)






(** C3.  The prediction step of a substep of size [h], on every body and at
    every carrier: gravity is added to the vertical velocity first, then
    each velocity component is multiplied by [DAMPING] once, then
    [prevPos] takes the position as it is before the integration, then the
    position advances by the new velocity times [h]; [radius] and [invMass]
    are kept.  A STEP runs it on every body once in each of its 12 substeps,
    with [h = dt / 12].  In exact arithmetic the result is the closed form
    [v' = (v + (0, g h, 0)) d], [prevPos' = pos], [pos' = pos + v' h], with
    [g = -9.81 * 0.001 < 0] and [d = 0.995]. *)
Theorem prediction_step :
  (forall (F : Type) (A : Arith F) (h : F) (obj : Body F),
      predict h obj
      = let v := vec3 (fround (e0 (vel obj) *! DAMPING))
                      (fround (fround (e1 (vel obj) +! GRAVITY *! h) *! DAMPING))
                      (fround (e2 (vel obj) *! DAMPING)) in
        {| pos := vec3 (fround (e0 (pos obj) +! e0 v *! h))
                       (fround (e1 (pos obj) +! e1 v *! h))
                       (fround (e2 (pos obj) +! e2 v *! h));
           prevPos := vec3 (fround (e0 (pos obj))) (fround (e1 (pos obj)))
                           (fround (e2 (pos obj)));
           vel := v;
           radius := radius obj;
           invMass := invMass obj |})
  /\ (forall (F : Type) (A : Arith F) (dt : option F) (objs : list (Body F)),
         substep_size dt = dt_or_default dt /! flit 12
         /\ step dt objs
            = Nat.iter 12
                (fun objs =>
                   map (velocity_update (substep_size dt))
                       (Nat.iter 4 solver_iteration
                                 (map (predict (substep_size dt)) objs))) objs)
  /\ (forall (h : R) (obj : Body R),
         let g := (-9.81 * 0.001)%R in
         let d := 0.995%R in
         let vx := (e0 (vel obj) * d)%R in
         let vy := ((e1 (vel obj) + g * h) * d)%R in
         let vz := (e2 (vel obj) * d)%R in
         (g < 0)%R
         /\ predict h obj
            = {| pos := vec3 (e0 (pos obj) + vx * h)%R (e1 (pos obj) + vy * h)%R
                             (e2 (pos obj) + vz * h)%R;
                 prevPos := pos obj;
                 vel := vec3 vx vy vz;
                 radius := radius obj;
                 invMass := invMass obj |})
  /\ (@GRAVITY float _ <! 0%float) = true
  /\ @DAMPING float _ = 0x1.fd70a3d70a3d7p-1%float.
Proof.
  split; [reflexivity|]. split; [intros; split; reflexivity|].
  split; [|vm_compute; split; reflexivity].
  intros h [[x y z] q [vx vy vz] r m]. cbn zeta. split; [lra|].
  rewrite predict_fields. unfold predicted_vel. cbn [pos vel e0 e1 e2 radius invMass].
  exact_literals. f_equal; f_equal; lra.
Qed.

(** C4.  The velocity update of a substep, on every body and at every
    carrier: each velocity component becomes the position delta over [h]
    and is then replaced by 0 when its absolute value tests below 0.001;
    nothing else changes; a substep runs it on every body after its four
    solver iterations.  In exact arithmetic a component of magnitude
    below 0.001, 0.0005 for one, is left at exactly 0 and any other is the
    quotient itself; in binary arithmetic 0.0005 and its opposite snap to 0
    as well. *)
Theorem velocity_reconstruction_and_snap :
  (forall (F : Type) (A : Arith F) (h : F) (obj : Body F),
      velocity_update h obj
      = {| pos := pos obj;
           prevPos := prevPos obj;
           vel := vec3
                    (snapped (fround ((e0 (pos obj) -! e0 (prevPos obj)) /! h)))
                    (snapped (fround ((e1 (pos obj) -! e1 (prevPos obj)) /! h)))
                    (snapped (fround ((e2 (pos obj) -! e2 (prevPos obj)) /! h)));
           radius := radius obj;
           invMass := invMass obj |})
  /\ (forall (F : Type) (A : Arith F) (v : F),
         snapped v = if fabs v <! flit 0.001 then fround (flit 0) else v)
  /\ (forall (F : Type) (A : Arith F) (h : F) (objs : list (Body F)),
         substep h objs
         = map (velocity_update h)
               (Nat.iter 4 solver_iteration (map (predict h) objs)))
  /\ (forall v : R, (Rabs v < 0.001)%R -> snapped v = 0%R)
  /\ (forall v : R, (0.001 <= Rabs v)%R -> snapped v = v)
  /\ (forall (h : R) (obj : Body R) (i : axis),
         Rabs ((get (pos obj) i - get (prevPos obj) i) / h)%R = 0.0005%R ->
         get (vel (velocity_update h obj)) i = 0%R)
  /\ snapped (Float64.fround32 (Float64.lit 0.0005)) = 0%float
  /\ snapped (Float64.fround32 (Float64.lit (-0.0005))) = 0%float.
Proof.
  split; [intros; apply velocity_update_fields|].
  split; [reflexivity|]. split; [reflexivity|].
  split; [exact snapped_small|]. split; [exact snapped_large|].
  split; [|vm_compute; split; reflexivity].
  intros h obj i H. rewrite velocity_update_fields.
  destruct i; cbn [get vel e0 e1 e2] in *; apply snapped_small;
    exact_literals; rewrite H; lra.
Qed.

(** The snap at a body whose position delta over [h = 1/12] is 0.0005 along
    each axis, one of them negative. *)
Lemma velocity_reconstruction_and_snap_witness :
  vel (velocity_update (1 / 12)%R
         (mkBody (vec3 (1 / 24000) 1 (- 1 / 24000))%R (vec3 0 1 0)%R
                 (vec3 3 3 3)%R 1%R 1%R))
  = vec3 0%R 0%R 0%R.
Proof.
  pose proof (proj1 (proj2 (proj2 (proj2 (proj2 (proj2
                velocity_reconstruction_and_snap)))))) as H.
  set (b := mkBody (vec3 (1 / 24000) 1 (- 1 / 24000))%R (vec3 0 1 0)%R
                   (vec3 3 3 3)%R 1%R 1%R).
  assert (H0 := H (1 / 12)%R b i0). assert (H2 := H (1 / 12)%R b i2).
  assert (H1 : get (vel (velocity_update (1 / 12)%R b)) i1 = 0%R).
  { rewrite velocity_update_fields. cbn. apply snapped_small.
    replace ((1 - 1) / (1 / 12))%R with 0%R by lra. rewrite Rabs_R0. lra. }
  cbn [get] in H0, H1, H2.
  rewrite velocity_update_fields in *. cbn [vel e0 e1 e2] in *.
  f_equal.
  - apply H0. subst b. cbn.
    replace ((1 / 24000 - 0) / (1 / 12))%R with 0.0005%R by lra.
    rewrite Rabs_pos_eq; lra.
  - exact H1.
  - apply H2. subst b. cbn.
    replace ((- 1 / 24000 - 0) / (1 / 12))%R with (Ropp 0.0005%R) by lra.
    rewrite Rabs_Ropp, Rabs_pos_eq; lra.
Defined.

(** C5 (as stated, refuted).  One body as [spawnParticle] posts it, at height
    25 with vertical velocity -0.1: a STEP with [dt = -1] runs backwards and
    posts it above 25, a STEP with [dt = 1] posts it below 25; the two do
    not behave alike.  A STEP with [dt = 0] does what [dt = 1] does. *)
Lemma negative_dt_counterexample :
  exists y_minus y_plus : float,
    snd (run Samples.zeros [INIT [Samples.spawned]; STEP (Some (-1)%float)] start)
    = [None; Some [0%float; y_minus; 0%float]]
    /\ snd (run Samples.zeros [INIT [Samples.spawned]; STEP (Some 1%float)] start)
       = [None; Some [0%float; y_plus; 0%float]]
    /\ snd (run Samples.zeros [INIT [Samples.spawned]; STEP (Some 0%float)] start)
       = [None; Some [0%float; y_plus; 0%float]]
    /\ (y_minus >! 25%float) = true
    /\ (y_plus <! 25%float) = true
    /\ substep_size (Some (-1)%float) = PrimFloat.div (-1) 12.
Proof.
  do 2 eexists. split; [vm_compute; reflexivity|].
  split; [vm_compute; reflexivity|]. vm_compute. repeat split; reflexivity.
Qed.

(** C5 (amended).  [dt] defaults to 1 when the field is absent or falsy, which
    for a number is zero (or NaN); any other [dt], a negative one included,
    is used as supplied, and [h = dt / 12] in every case.  So [dt = 0] and an
    absent [dt] step like [dt = 1], and [dt = -1] steps with [h = -1/12]. *)
Theorem dt_defaulting :
  (forall (F : Type) (A : Arith F),
      dt_or_default None = flit 1
      /\ (forall d : F, ftruthy d = false -> dt_or_default (Some d) = flit 1)
      /\ (forall d : F, ftruthy d = true -> dt_or_default (Some d) = d)
      /\ (forall dt : option F, substep_size dt = dt_or_default dt /! flit 12))
  /\ (forall d : R, ftruthy d = false <-> d = 0%R)
  /\ (forall d : R, d <> 0%R -> substep_size (Some d) = (d / 12)%R)
  /\ @substep_size R _ None = (1 / 12)%R
  /\ @substep_size R _ (Some 0%R) = (1 / 12)%R
  /\ @substep_size R _ (Some (-1)%R) = (- 1 / 12)%R
  /\ map (@ftruthy float _) [0%float; (-0)%float; nan; (-1)%float; 1%float]
     = [false; false; false; true; true].
Proof.
  split.
  { intros F A. split; [reflexivity|]. split; [|split].
    - intros d H. cbn. now rewrite H.
    - intros d H. cbn. now rewrite H.
    - reflexivity. }
  assert (Hz : forall d : R, ftruthy d = false <-> d = 0%R).
  { intros d. cbn. unfold Exact.truthy.
    destruct (Req_dec_T d 0); split; intros E; auto; try discriminate.
    contradiction. }
  assert (Hnz : forall d : R, d <> 0%R -> substep_size (Some d) = (d / 12)%R).
  { intros d Hd. unfold substep_size, dt_or_default.
    apply truthy_nonzero in Hd. rewrite Hd. exact_literals. cbn. lra. }
  assert (Hdef : forall d : option R,
             dt_or_default d = 1%R -> substep_size d = (1 / 12)%R).
  { intros d Hd. unfold substep_size. rewrite Hd. exact_literals. cbn. lra. }
  split; [exact Hz|]. split; [exact Hnz|].
  split; [apply Hdef; cbn; lra|]. split.
  - apply Hdef. unfold dt_or_default.
    replace (ftruthy 0%R) with false by (symmetry; now apply Hz).
    cbn; lra.
  - split; [|vm_compute; reflexivity].
    rewrite Hnz by lra. lra.
Qed.

(** The default at [dt = 0], and a negative [dt] taken as supplied. *)
Lemma dt_defaulting_witness :
  @dt_or_default float _ (Some 0%float) = flit 1
  /\ @dt_or_default float _ (Some (-1)%float) = (-1)%float
  /\ @substep_size R _ (Some (-1)%R) = (-1 / 12)%R.
Proof.
  destruct dt_defaulting as (Hgen & _ & Hnz & _).
  destruct (Hgen float _) as (_ & Hfalse & Htrue & _).
  split; [apply Hfalse; vm_compute; reflexivity|].
  split; [apply Htrue; vm_compute; reflexivity|].
  apply Hnz. lra.
Defined.

(** C6 (as stated, refuted).  After an INIT of one sphere, SPAWN commands with
    radius -1, with radius 0 and with a NaN and an infinite position
    component: each of them is answered like any other command and its body
    is in the store, the radius and the components as given. *)
Lemma invalid_body_counterexample :
  map (@radius float)
      (objects (fst (run Samples.zeros Samples.invalid_spawns start)))
  = [1%float; (-1)%float; 0%float; 1%float]
  /\ map (fun b => (e0 (pos b), e1 (pos b)))
         (objects (fst (run Samples.zeros Samples.invalid_spawns start)))
     = [(0, 5); (0, 5); (0, 5); (nan, infinity)]%float
  /\ snd (run Samples.zeros Samples.invalid_spawns start)
     = [None; None; None; None]
  /\ map (@radius float)
         (objects (fst (onmessage Samples.zeros
                                  (INIT [Samples.radius_zero; Samples.radius_negative])
                                  (fst (run Samples.zeros Samples.invalid_spawns
                                            start)))))
     = [0%float; (-1)%float].
Proof. vm_compute. repeat split; reflexivity. Qed.

(** C6 (amended).  INIT and SPAWN check nothing: INIT replaces the store by one
    body per element of its payload, SPAWN appends one body, and the body has
    the radius of the payload whatever it is, inverse mass 1 and binary32
    copies of the position and the velocity given; neither sends a reply,
    so no error is reported. *)
Theorem init_and_spawn_accept_every_body :
  forall (F : Type) (A : Arith F) (random : nat -> F) (w : Worker F),
    (forall payload : list (BodyInit F),
        onmessage random (INIT payload) w
        = (mkWorker (map new_object payload) (random_calls w), None)
        /\ length (objects (fst (onmessage random (INIT payload) w)))
           = length payload)
    /\ (forall payload : BodyInit F,
           onmessage random (SPAWN payload) w
           = (mkWorker (objects w ++ [new_object payload]) (random_calls w), None)
           /\ length (objects (fst (onmessage random (SPAWN payload) w)))
              = S (length (objects w)))
    /\ (forall obj : BodyInit F,
           new_object obj
           = {| pos := Float32Array (init_pos obj);
                prevPos := Float32Array (init_pos obj);
                vel := Float32Array (init_vel obj);
                radius := init_radius obj;
                invMass := flit 1 |}).
Proof.
  intros F A random w. split; [|split].
  - intros payload. split; [reflexivity|]. cbn. unfold init. apply length_map.
  - intros payload. split; [reflexivity|]. cbn. unfold spawn.
    rewrite length_app. cbn. lia.
  - reflexivity.
Qed.

Lemma run_step_cons (F : Type) (A : Arith F) (random : nat -> F) (dt : option F)
      (es : list (Msg F)) (w : Worker F) :
  run random (STEP dt :: es) w
  = (fst (run random es (mkWorker (step dt (objects w)) (random_calls w))),
     Some (positions_of (step dt (objects w)))
          :: snd (run random es (mkWorker (step dt (objects w)) (random_calls w)))).
Proof.
  cbn [run onmessage].
  destruct (run random es (mkWorker (step dt (objects w)) (random_calls w))).
  reflexivity.
Qed.


(** C9.  A run of STEP commands depends on the bodies and the [dt] values
    alone: from stores holding the same bodies, whatever [Math.random] would
    return in either run and however often it has been called before, the
    same [dt] sequence leaves the same bodies and posts the same position
    arrays, and it calls [Math.random] not once. *)
Theorem advance_is_deterministic :
  forall (F : Type) (A : Arith F) (random1 random2 : nat -> F)
         (w1 w2 : Worker F) (dts : list (option F)),
    objects w1 = objects w2 ->
    objects (fst (run random1 (map (@STEP F) dts) w1))
    = objects (fst (run random2 (map (@STEP F) dts) w2))
    /\ snd (run random1 (map (@STEP F) dts) w1)
       = snd (run random2 (map (@STEP F) dts) w2)
    /\ random_calls (fst (run random1 (map (@STEP F) dts) w1)) = random_calls w1.
Proof.
  intros F A random1 random2 w1 w2 dts. revert w1 w2.
  induction dts as [|dt dts IH]; intros w1 w2 Hobj.
  - cbn [map run fst snd]. auto.
  - cbn [map]. rewrite !run_step_cons. rewrite Hobj.
    generalize (step dt (objects w2)) as s. intros s.
    destruct (IH (mkWorker s (random_calls w1)) (mkWorker s (random_calls w2)) eq_refl)
      as (IHo & IHr & IHc).
    split; [exact IHo|]. split; [|exact IHc].
    exact (f_equal (cons (Some (positions_of s))) IHr).
Qed.

(** Two workers holding the same two bodies, with different random sources
    and call counts, stepped with [dt = 1], an absent [dt] and [dt = 0.5]. *)
Lemma advance_is_deterministic_witness :
  objects (fst (run Samples.zeros
                    (map (@STEP float) [Some 1%float; None; Some 0.5%float])
                    (mkWorker (init Samples.wide_pair) 0)))
  = objects (fst (run Samples.halves
                      (map (@STEP float) [Some 1%float; None; Some 0.5%float])
                      (mkWorker (init Samples.wide_pair) 7)))
  /\ snd (run Samples.zeros
              (map (@STEP float) [Some 1%float; None; Some 0.5%float])
              (mkWorker (init Samples.wide_pair) 0))
     = snd (run Samples.halves
                (map (@STEP float) [Some 1%float; None; Some 0.5%float])
                (mkWorker (init Samples.wide_pair) 7))
  /\ random_calls (fst (run Samples.zeros
                            (map (@STEP float) [Some 1%float; None; Some 0.5%float])
                            (mkWorker (init Samples.wide_pair) 0)))
     = 0.
Proof.
  exact (@advance_is_deterministic float _ Samples.zeros Samples.halves
           (mkWorker (init Samples.wide_pair) 0)
           (mkWorker (init Samples.wide_pair) 7)
           [Some 1%float; None; Some 0.5%float] eq_refl).
Defined.

Lemma respawn_one_fields (F : Type) (A : Arith F) (random : nat -> F) (n : nat)
      (b : Body F) :
  respawn_one random n b
  = {| pos := vec3 (fround ((random n -! flit 0.5) *! flit 5.0))
                   (fround (flit 10 +! random (n + 1) *! flit 20))
                   (fround ((random (n + 2) -! flit 0.5) *! flit 5.0));
       prevPos := prevPos b;
       vel := vec3 (fround (flit 0)) (fround (flit 0)) (fround (flit 0));
       radius := radius b;
       invMass := invMass b |}.
Proof. reflexivity. Qed.

Lemma explode_one_fields (F : Type) (A : Arith F) (random : nat -> F) (n : nat)
      (b : Body F) :
  explode_one random n b
  = {| pos := pos b;
       prevPos := prevPos b;
       vel := vec3
                (fround (e0 (vel b) +! (random n -! flit 0.5) *! flit 3.5))
                (fround (e1 (vel b) +! random (n + 1) *! flit 3.5 *! flit 1.5))
                (fround (e2 (vel b) +! (random (n + 2) -! flit 0.5) *! flit 3.5));
       radius := radius b;
       invMass := invMass b |}.
Proof. reflexivity. Qed.

(** C7 (as stated, refuted).  Forty-five bodies and a RESET that carries the
    count 10: the store keeps 35 bodies, not [min 45 10 = 10].  With
    [Math.random] returning 0 the first body is respawned at
    [(-2.5, 10, -2.5)], on the boundary the open interval leaves out; with
    [Math.random] returning the largest number below 1 the binary32 stores
    round it to [(2.5, 30, 2.5)]. *)
Lemma reset_counterexample :
  length (objects (fst (run Samples.zeros
                            [INIT (Samples.row 45); @RESET float (Some 10)] start)))
  = 35
  /\ Nat.min 45 10 = 10
  /\ map (@pos float)
         (firstn 1 (objects (fst (run Samples.zeros
                                      [INIT (Samples.row 45); @RESET float (Some 10)]
                                      start))))
     = [vec3 (-2.5)%float 10%float (-2.5)%float]
  /\ map (@pos float)
         (firstn 1 (objects (fst (run Samples.almost_ones
                                      [INIT (Samples.row 45); @RESET float (Some 10)]
                                      start))))
     = [vec3 2.5%float 30%float 2.5%float].
Proof. vm_compute. repeat split; reflexivity. Qed.

(** C7 (amended).  RESET reads no count: whatever its payload, a store of [n]
    bodies keeps its first [min n 35] bodies in order and sends no reply;
    45 bodies become 35.  Each kept body keeps [prevPos], [radius] and
    [invMass], has its velocity set to 0 in all components, and takes its
    position from three fresh [Math.random] results [r]:
    [x, z = (r - 0.5) * 5] and [y = 10 + r * 20], which in exact arithmetic
    lie in [[-2.5, 2.5)] and [[10, 30)] for [r] in [[0, 1)]. *)
Theorem reset_keeps_first_35 :
  (forall (F : Type) (A : Arith F) (random : nat -> F) (payload : option nat)
          (w : Worker F),
      length (objects (fst (onmessage random (@RESET F payload) w)))
      = Nat.min (length (objects w)) 35
      /\ (length (objects w) = 45 ->
          length (objects (fst (onmessage random (@RESET F payload) w))) = 35)
      /\ snd (onmessage random (@RESET F payload) w) = None
      /\ random_calls (fst (onmessage random (@RESET F payload) w))
         = random_calls w + 3 * Nat.min (length (objects w)) 35
      /\ (forall k b,
             k < 35 -> nth_error (objects w) k = Some b ->
             nth_error (objects (fst (onmessage random (@RESET F payload) w))) k
             = Some (respawn_one random (random_calls w + 3 * k) b))
      /\ (forall n b,
             respawn_one random n b
             = {| pos := vec3 (fround ((random n -! flit 0.5) *! flit 5.0))
                              (fround (flit 10 +! random (n + 1) *! flit 20))
                              (fround ((random (n + 2) -! flit 0.5) *! flit 5.0));
                  prevPos := prevPos b;
                  vel := vec3 (fround (flit 0)) (fround (flit 0)) (fround (flit 0));
                  radius := radius b;
                  invMass := invMass b |}))
  /\ (forall (random : nat -> R) (n : nat) (b : Body R),
         (forall k, 0 <= random k < 1)%R ->
         vel (respawn_one random n b) = vec3 0%R 0%R 0%R
         /\ (-2.5 <= e0 (pos (respawn_one random n b)) < 2.5)%R
         /\ (10 <= e1 (pos (respawn_one random n b)) < 30)%R
         /\ (-2.5 <= e2 (pos (respawn_one random n b)) < 2.5)%R).
Proof.
  split.
  - intros F A random payload w. rewrite onmessage_reset. cbn [fst snd objects random_calls].
    unfold reset. rewrite respawn_length, respawn_calls, length_firstn.
    rewrite (Nat.min_comm 35).
    split; [reflexivity|]. split; [intros ->; reflexivity|].
    split; [reflexivity|]. split; [reflexivity|]. split; [|intros; reflexivity].
    intros k b Hk Hb. rewrite respawn_nth, nth_error_firstn.
    apply Nat.ltb_lt in Hk. rewrite Hk, Hb. reflexivity.
  - intros random n b Hr. rewrite respawn_one_fields. cbn [pos vel e0 e1 e2].
    pose proof (Hr n). pose proof (Hr (n + 1)). pose proof (Hr (n + 2)).
    exact_literals. split; [f_equal; lra|]. repeat split; lra.
Qed.

(** RESET on the 45 bodies of the scenario (40 initialised, 5 spawned), and
    the respawn volume along a sequence of random results equal to 1/4. *)
Lemma reset_keeps_first_35_witness :
  length (objects (fst (onmessage Samples.zeros (@RESET float (Some 35))
                                  (fst (run Samples.zeros
                                            (INIT (Samples.row 40)
                                                  :: repeat (SPAWN Samples.spawned) 5)
                                            start)))))
  = 35
  /\ (-2.5 <= e0 (pos (respawn_one ExactSamples.quarters 0
                                   (ExactSamples.resting 0 1))) < 2.5)%R.
Proof.
  destruct reset_keeps_first_35 as (Hgen & Hexact).
  split.
  - apply Hgen. vm_compute. reflexivity.
  - apply (Hexact ExactSamples.quarters 0 (ExactSamples.resting 0 1)).
    intros k. unfold ExactSamples.quarters. lra.
Defined.

(** C8.  EXPLOSION keeps the number of bodies and, of every body, [pos],
    [prevPos], [radius] and [invMass]; it sends no reply.  Each velocity
    component gains one term, a function of one fresh [Math.random] result
    [r]: [(r - 0.5) * 3.5] for the horizontal components and
    [r * 3.5 * 1.5] for the vertical one.  In exact arithmetic, for [r] in
    [[0, 1)], the horizontal term lies in [[-1.75, 1.75)], centered at zero,
    and the vertical term in [[0, 5.25)], never negative. *)
Theorem explosion_changes_velocities_only :
  (forall (F : Type) (A : Arith F) (random : nat -> F) (w : Worker F),
      let w' := fst (onmessage random (@EXPLOSION F) w) in
      length (objects w') = length (objects w)
      /\ map (@pos F) (objects w') = map (@pos F) (objects w)
      /\ map (@prevPos F) (objects w') = map (@prevPos F) (objects w)
      /\ map (@radius F) (objects w') = map (@radius F) (objects w)
      /\ map (@invMass F) (objects w') = map (@invMass F) (objects w)
      /\ snd (onmessage random (@EXPLOSION F) w) = None
      /\ random_calls w' = random_calls w + 3 * length (objects w)
      /\ (forall k b,
             nth_error (objects w) k = Some b ->
             nth_error (objects w') k
             = Some (explode_one random (random_calls w + 3 * k) b))
      /\ (forall n b,
             vel (explode_one random n b)
             = vec3
                 (fround (e0 (vel b) +! (random n -! flit 0.5) *! flit 3.5))
                 (fround (e1 (vel b) +! random (n + 1) *! flit 3.5 *! flit 1.5))
                 (fround (e2 (vel b) +! (random (n + 2) -! flit 0.5) *! flit 3.5))))
  /\ (forall (random : nat -> R) (n : nat) (b : Body R),
         (forall k, 0 <= random k < 1)%R ->
         (-1.75 <= e0 (vel (explode_one random n b)) - e0 (vel b) < 1.75)%R
         /\ (0 <= e1 (vel (explode_one random n b)) - e1 (vel b) < 5.25)%R
         /\ (-1.75 <= e2 (vel (explode_one random n b)) - e2 (vel b) < 1.75)%R).
Proof.
  split.
  - intros F A random w. cbn zeta. rewrite onmessage_explosion.
    cbn [fst snd objects random_calls].
    rewrite explosion_length, explosion_calls.
    rewrite !explosion_map by reflexivity.
    repeat (split; [reflexivity|]). split; [|intros; reflexivity].
    intros k b Hb. rewrite explosion_nth, Hb. reflexivity.
  - intros random n b Hr. rewrite explode_one_fields. cbn [pos vel e0 e1 e2].
    pose proof (Hr n). pose proof (Hr (n + 1)). pose proof (Hr (n + 2)).
    exact_literals. repeat split; lra.
Qed.

(** The velocity terms along a sequence of random results equal to 1/4. *)
Lemma explosion_changes_velocities_only_witness :
  (0 <= e1 (vel (explode_one ExactSamples.quarters 0 (ExactSamples.resting 0 1)))
        - e1 (vel (ExactSamples.resting 0 1)) < 5.25)%R.
Proof.
  apply (proj2 explosion_changes_velocities_only ExactSamples.quarters 0
               (ExactSamples.resting 0 1)).
  intros k. unfold ExactSamples.quarters. lra.
Defined.

(** C10.  Every body INIT or SPAWN creates has inverse mass 1 and [prevPos]
    equal to [pos]; no command changes an inverse mass (INIT sets all to 1,
    SPAWN appends a 1, RESET keeps the first 35, the others keep the list);
    so in every state the worker reaches all inverse masses are 1, none is
    zero, and a pair the solver resolves is split equally: each body moves
    by [overlap / 2] along the unit normal in exact arithmetic, and by
    [overlap * 0.5] in binary arithmetic. *)
Theorem uniform_inverse_mass :
  (forall (F : Type) (A : Arith F) (random : nat -> F) (w : Worker F),
      reachable random w ->
      Forall (fun b => invMass b = flit 1) (objects w))
  /\ (forall (F : Type) (A : Arith F) (obj : BodyInit F),
         invMass (new_object obj) = flit 1
         /\ prevPos (new_object obj) = pos (new_object obj))
  /\ (forall (F : Type) (A : Arith F) (random : nat -> F) (e : Msg F)
             (w : Worker F),
         map (@invMass F) (objects (fst (onmessage random e w)))
         = match e with
           | INIT payload => map (fun _ => flit 1) payload
           | SPAWN _ => map (@invMass F) (objects w) ++ [flit 1]
           | RESET _ => firstn 35 (map (@invMass F) (objects w))
           | _ => map (@invMass F) (objects w)
           end)
  /\ (forall (random : nat -> R) (w : Worker R),
         reachable random w ->
         Forall (fun b => invMass b = 1%R /\ invMass b <> 0%R) (objects w))
  /\ (forall a b : Body R,
         invMass a = 1%R -> invMass b = 1%R -> penetrating a b = true ->
         resolve_pair a b
         = (pushed_back a (normal_of a b) (overlap_of a b / 2)%R,
            pushed_on b (normal_of a b) (overlap_of a b / 2)%R)
         /\ (normal_of a b i0 * normal_of a b i0
             + normal_of a b i1 * normal_of a b i1
             + normal_of a b i2 * normal_of a b i2 = 1)%R)
  /\ (forall a b : Body float,
         invMass a = flit 1 -> invMass b = flit 1 -> penetrating a b = true ->
         resolve_pair a b
         = (pushed_back a (normal_of a b) (PrimFloat.mul (overlap_of a b) 0.5),
            pushed_on b (normal_of a b) (PrimFloat.mul (overlap_of a b) 0.5))).
Proof.
  split; [exact reachable_invMass|].
  split; [intros; split; reflexivity|].
  split; [exact onmessage_invMass|].
  split; [|split].
  - intros random w Hw. apply reachable_invMass in Hw.
    revert Hw. apply Forall_impl. intros b Hb. rewrite Hb.
    exact_literals. split; lra.
  - intros a b Ha Hb Hp. rewrite (resolve_pair_hit a b Hp).
    destruct (corr_half a b Ha Hb) as [-> ->].
    split; [reflexivity|]. apply unit_normal.
    apply penetrating_exact in Hp. lra.
  - intros a b Ha Hb Hp. rewrite (resolve_pair_hit a b Hp).
    unfold corr_of. rewrite Ha, Hb. reflexivity.
Qed.

(** The invariant at the state after an INIT of two bodies, a SPAWN, an
    EXPLOSION, a STEP and a RESET. *)
Lemma uniform_inverse_mass_witness :
  Forall (fun b : Body float => invMass b = flit 1)
         (objects
            (fst (onmessage Samples.halves (@RESET float None)
               (fst (onmessage Samples.halves (STEP (Some 1%float))
                  (fst (onmessage Samples.halves (@EXPLOSION float)
                     (fst (onmessage Samples.halves (SPAWN Samples.spawned)
                        (fst (onmessage Samples.halves (INIT Samples.wide_pair)
                                        start))))))))))).
Proof.
  apply (proj1 uniform_inverse_mass float _ Samples.halves).
  repeat apply reach_msg. apply reach_start.
Defined.

(** ** Further properties of the worker *)

Section WorkerAtEveryCarrier.

Context {F : Type} {A : Arith F}.

Lemma positions_of_length (objs : list (Body F)) :
  length (positions_of objs) = 3 * length objs.
Proof.
  unfold positions_of. induction objs as [|o objs IH]; [reflexivity|].
  cbn [flat_map app length]. rewrite IH. lia.
Qed.

Lemma positions_of_nth (objs : list (Body F)) (i : nat) (o : Body F) :
  nth_error objs i = Some o ->
  nth_error (positions_of objs) (i * 3 + 0) = Some (fround (get (pos o) i0))
  /\ nth_error (positions_of objs) (i * 3 + 1) = Some (fround (get (pos o) i1))
  /\ nth_error (positions_of objs) (i * 3 + 2) = Some (fround (get (pos o) i2)).
Proof.
  unfold positions_of. revert i.
  induction objs as [|o' objs IH]; intros [|i] Hi; try discriminate.
  - injection Hi as ->. repeat split; reflexivity.
  - cbn [nth_error] in Hi. specialize (IH i Hi).
    replace (S i * 3 + 0) with (S (S (S (i * 3 + 0)))) by lia.
    replace (S i * 3 + 1) with (S (S (S (i * 3 + 1)))) by lia.
    replace (S i * 3 + 2) with (S (S (S (i * 3 + 2)))) by lia.
    exact IH.
Qed.

Lemma prevPos_stable : pair_stable (@prevPos F).
Proof. intros a b; pose proof (resolve_pair_frame a b); cbn in *; tauto. Qed.

Lemma vel_stable : pair_stable (@vel F).
Proof. intros a b; pose proof (resolve_pair_frame a b); cbn in *; tauto. Qed.

Lemma run_app (random : nat -> F) (es1 es2 : list (Msg F)) (w : Worker F) :
  run random (es1 ++ es2) w
  = (fst (run random es2 (fst (run random es1 w))),
     snd (run random es1 w) ++ snd (run random es2 (fst (run random es1 w)))).
Proof.
  revert w; induction es1 as [|e es1 IH]; intros w.
  - cbn [app run fst snd]. now destruct (run random es2 w).
  - cbn [app run]. destruct (onmessage random e w) as [w1 r].
    rewrite IH. destruct (run random es1 w1) as [w2 rs]. reflexivity.
Qed.

Lemma run_single (random : nat -> F) (e : Msg F) (w : Worker F) :
  run random [e] w = (fst (onmessage random e w), [snd (onmessage random e w)]).
Proof. cbn [run]. now destruct (onmessage random e w). Qed.

Lemma onmessage_reply (random : nat -> F) (e : Msg F) (w : Worker F) :
  is_update (snd (onmessage random e w)) = is_step e.
Proof.
  destruct e; try reflexivity.
  - rewrite onmessage_explosion. reflexivity.
  - rewrite onmessage_reset. reflexivity.
Qed.

Lemma onmessage_radius (random : nat -> F) (e : Msg F) (w : Worker F) :
  map (@radius F) (objects (fst (onmessage random e w)))
  = match e with
    | INIT payload => map (@init_radius F) payload
    | SPAWN payload => map (@radius F) (objects w) ++ [init_radius payload]
    | RESET _ => firstn 35 (map (@radius F) (objects w))
    | _ => map (@radius F) (objects w)
    end.
Proof.
  destruct e as [payload|payload|dt| |payload| | | |]; try reflexivity.
  - cbn [onmessage fst objects]. unfold init. rewrite map_map. reflexivity.
  - cbn [onmessage fst objects]. unfold spawn. rewrite map_app. reflexivity.
  - cbn [onmessage fst objects]. apply step_map, radius_step_stable.
  - rewrite onmessage_explosion. cbn [fst objects]. now apply explosion_map.
  - rewrite onmessage_reset. cbn [fst objects]. unfold reset.
    rewrite respawn_map by reflexivity. now rewrite firstn_map.
Qed.

Lemma onmessage_length (random : nat -> F) (e : Msg F) (w : Worker F) :
  length (objects (fst (onmessage random e w)))
  = match e with
    | INIT payload => length payload
    | SPAWN _ => S (length (objects w))
    | RESET _ => Nat.min 35 (length (objects w))
    | _ => length (objects w)
    end.
Proof.
  rewrite <- (length_map (@radius F)), onmessage_radius.
  destruct e; rewrite ?length_map, ?length_app, ?length_firstn, ?length_map;
    cbn [length]; lia.
Qed.

End WorkerAtEveryCarrier.

Lemma run_cons (F : Type) (A : Arith F) (random : nat -> F) (e : Msg F)
      (es : list (Msg F)) (w : Worker F) :
  run random (e :: es) w
  = (fst (run random es (fst (onmessage random e w))),
     snd (onmessage random e w) :: snd (run random es (fst (onmessage random e w)))).
Proof.
  change (e :: es) with ([e] ++ es). rewrite run_app, run_single. reflexivity.
Qed.

(** ** Properties of the component *)

Section ComponentAtEveryCarrier.

Context {F : Type} {A : Arith F}.

Lemma populate_lengths (random : nat -> F) (count i n : nat) :
  length (fst (fst (populate random count i n))) = count
  /\ length (snd (fst (populate random count i n))) = count
  /\ snd (populate random count i n) = n + 5 * count.
Proof.
  revert i n; induction count as [|count IH]; intros i n.
  - cbn. repeat split; lia.
  - cbn [populate]. destruct (initial_sphere random i n) as [mesh data].
    specialize (IH (S i) (n + 5)).
    destruct (populate random count (S i) (n + 5)) as [[ms ds] n'].
    cbn [fst snd length] in *. lia.
Qed.

Lemma populate_payloads (random : nat -> F) (P : BodyInit F -> Prop)
      (count i n : nat) :
  (forall i n, P (snd (initial_sphere random i n))) ->
  Forall P (snd (fst (populate random count i n))).
Proof.
  intros HP. revert i n; induction count as [|count IH]; intros i n.
  - constructor.
  - cbn [populate]. pose proof (HP i n) as H0.
    destruct (initial_sphere random i n) as [mesh data].
    specialize (IH (S i) (n + 5)).
    destruct (populate random count (S i) (n + 5)) as [[ms ds] n'].
    cbn [fst snd] in *. now constructor.
Qed.

Lemma mount_fields (random : nat -> F) :
  mount random
  = mkView (fst (fst (populate random 35 0 0)))
           [INIT (snd (fst (populate random 35 0 0))); STEP (Some (flit 1.0))]
           (snd (populate random 35 0 0)).
Proof.
  unfold mount. now destruct (populate random 35 0 0) as [[ms ds] n].
Qed.

Lemma play_snoc (random : nat -> F) (events : list Event) (e : Event) :
  play random (events ++ [e]) = handle random (play random events) e.
Proof. unfold play. now rewrite fold_left_app. Qed.

(** The message a handler posts. *)
Lemma handle_posted (random : nat -> F) (v : View F) (e : Event) :
  exists msg : Msg F,
    posted (handle random v e) = posted v ++ [msg]
    /\ match e, msg with
       | Frame, STEP dt => dt = Some (flit 1.0)
       | SpawnClick, SPAWN payload =>
           init_radius payload = flit 1.0
           /\ length (meshesRef (handle random v e)) = S (length (meshesRef v))
       | ExplosionClick, EXPLOSION => True
       | ResetClick, RESET _ => True
       | _, _ => False
       end
    /\ match e with
       | SpawnClick => True
       | ResetClick => meshesRef (handle random v e) = firstn 35 (meshesRef v)
       | _ => meshesRef (handle random v e) = meshesRef v
       end.
Proof.
  destruct e; cbn [handle]; eexists; (split; [reflexivity|]); cbn; auto.
  split; [|exact I]. split; [reflexivity|]. rewrite length_app. cbn. lia.
Qed.

Lemma run_snoc (random : nat -> F) (es : list (Msg F)) (e : Msg F) (w : Worker F) :
  fst (run random (es ++ [e]) w) = fst (onmessage random e (fst (run random es w))).
Proof. now rewrite run_app, run_single. Qed.

Lemma run_mount (ui_random worker_random : nat -> F) :
  length (objects (fst (run worker_random (posted (mount ui_random)) start))) = 35
  /\ map (@radius F)
         (objects (fst (run worker_random (posted (mount ui_random)) start)))
     = map (@init_radius F) (snd (fst (populate ui_random 35 0 0))).
Proof.
  rewrite mount_fields. cbn [posted].
  change [INIT (snd (fst (populate ui_random 35 0 0))); STEP (Some (flit 1.0))]
    with ([INIT (snd (fst (populate ui_random 35 0 0)))] ++ [STEP (Some (flit 1.0))]).
  rewrite run_snoc, run_single. cbn [fst].
  rewrite onmessage_length, onmessage_radius, onmessage_length, onmessage_radius.
  split; [apply populate_lengths|reflexivity].
Qed.

Lemma run_reachable (random : nat -> F) (es : list (Msg F)) (w : Worker F) :
  reachable random w -> reachable random (fst (run random es w)).
Proof.
  revert w; induction es as [|e es IH]; intros w Hw; [exact Hw|].
  rewrite run_cons. cbn [fst]. apply IH. now constructor.
Qed.


(** *** The UPDATE handler *)

Lemma replace_nth_length (n : nat) (m : Mesh F) (l : list (Mesh F)) :
  length (replace_nth n m l) = length l.
Proof. revert n; induction l as [|x l IH]; intros [|n]; cbn; auto. Qed.

Lemma shown_nil (meshes : list (Mesh F)) : shown [] meshes = meshes.
Proof. now destruct meshes. Qed.

Lemma shown_length (objs : list (Body F)) (meshes : list (Mesh F)) :
  length (shown objs meshes) = length meshes.
Proof.
  revert objs; induction meshes as [|m ms IH]; intros [|o os]; cbn; auto.
Qed.

Lemma shown_nth (objs : list (Body F)) (meshes : list (Mesh F)) (i : nat) (m : Mesh F) :
  nth_error meshes i = Some m ->
  nth_error (shown objs meshes) i
  = Some (match nth_error objs i with Some o => moved_to m o | None => m end).
Proof.
  revert objs i; induction meshes as [|m0 ms IH]; intros objs i Hi.
  - now destruct i.
  - destruct objs as [|o os].
    + cbn [shown]. rewrite Hi. now destruct i.
    + destruct i as [|i]; cbn in *.
      * now injection Hi as ->.
      * now apply IH.
Qed.

Lemma shown_next (objs : list (Body F)) (meshes : list (Mesh F)) (k : nat)
      (o : Body F) (m : Mesh F) :
  nth_error objs k = Some o -> nth_error meshes k = Some m ->
  replace_nth k (moved_to m o) (shown (firstn k objs) meshes)
  = shown (firstn (S k) objs) meshes.
Proof.
  revert objs meshes; induction k as [|k IH]; intros [|o0 os] [|m0 ms] Ho Hm;
    try discriminate; cbn in Ho, Hm.
  - injection Ho as ->. injection Hm as ->. cbn. now destruct ms.
  - cbn [firstn shown replace_nth]. f_equal.
    change (o0 :: firstn k os) with (firstn (S k) (o0 :: os)).
    cbn [firstn shown]. now apply IH.
Qed.

Lemma update_prefix (objs : list (Body F)) (meshes : list (Mesh F)) (k : nat) :
  k <= length meshes -> k <= length objs ->
  fold_left (fun acc i =>
               match acc with
               | Some ms => update_mesh (positions_of objs) i ms
               | None => None
               end)
            (seq 0 k) (Some meshes)
  = Some (shown (firstn k objs) meshes).
Proof.
  induction k as [|k IH]; intros Hm Ho.
  - cbn [seq fold_left firstn]. now rewrite shown_nil.
  - rewrite seq_S, fold_left_app, IH by lia. cbn [fold_left Nat.add].
    destruct (nth_error objs k) as [o|] eqn:Eo;
      [|apply nth_error_None in Eo; lia].
    destruct (nth_error meshes k) as [m|] eqn:Em;
      [|apply nth_error_None in Em; lia].
    unfold update_mesh.
    rewrite (@shown_nth (firstn k objs) meshes k m Em).
    rewrite nth_error_firstn, Nat.ltb_irrefl.
    destruct (positions_of_nth objs k Eo) as (-> & -> & ->).
    f_equal. now apply shown_next.
Qed.

Lemma on_update_shown (objs : list (Body F)) (meshes : list (Mesh F)) :
  on_update (positions_of objs) meshes = Some (shown objs meshes).
Proof.
  unfold on_update. rewrite positions_of_length.
  replace ((3 * length objs + 2) / 3) with (length objs)
    by (rewrite Nat.mul_comm, Nat.div_add_l by lia; cbn; lia).
  rewrite update_prefix by lia. f_equal.
  destruct (Nat.min_spec (length meshes) (length objs)) as [[Hlt ->]|[Hle ->]].
  - clear Hlt. revert objs.
    induction meshes as [|m ms IH]; intros [|o os]; cbn; auto.
    now rewrite IH.
  - now rewrite firstn_all.
Qed.

End ComponentAtEveryCarrier.

(** X1.  The reply to a STEP is one array of three numbers per body of the
    store, in the order of the store: entries [3i], [3i + 1], [3i + 2] are
    the coordinates of body [i] after the step. *)
Theorem step_reply_layout :
  forall (F : Type) (A : Arith F) (random : nat -> F) (dt : option F)
         (w : Worker F) (i : nat) (o : Body F),
    nth_error (objects (fst (onmessage random (STEP dt) w))) i = Some o ->
    exists positions : list F,
      snd (onmessage random (STEP dt) w) = Some positions
      /\ length positions = 3 * length (objects w)
      /\ nth_error positions (i * 3 + 0) = Some (fround (get (pos o) i0))
      /\ nth_error positions (i * 3 + 1) = Some (fround (get (pos o) i1))
      /\ nth_error positions (i * 3 + 2) = Some (fround (get (pos o) i2)).
Proof.
  intros F A random dt w i o. cbn [onmessage fst snd objects].
  generalize (step_length dt (objects w)).
  generalize (step dt (objects w)) as objs. intros objs Hlen Hi.
  exists (positions_of objs). split; [reflexivity|].
  split; [now rewrite positions_of_length, Hlen|].
  now apply positions_of_nth.
Qed.

(** The reply to a STEP on the two wide bodies, read at the second one. *)
Lemma step_reply_layout_witness :
  exists positions : list float,
    snd (onmessage Samples.zeros (STEP (Some 1%float))
                   (mkWorker (init Samples.wide_pair) 0))
    = Some positions
    /\ length positions = 6
    /\ nth_error positions 3 = Some 30%float.
Proof.
  destruct (@step_reply_layout float _ Samples.zeros (Some 1%float)
              (mkWorker (init Samples.wide_pair) 0) 1
              (mkBody (vec3 30 30 0)%float (vec3 30 30 0)%float
                      (vec3 0 0 0)%float 30%float 1%float))
    as (positions & Hreply & Hlen & Hx & _).
  - vm_compute. reflexivity.
  - exists positions. split; [exact Hreply|]. split; [exact Hlen|].
    refine (eq_trans Hx _). vm_compute. reflexivity.
Defined.

(** X2.  A STEP neither adds, removes nor reorders bodies, and changes no
    radius and no inverse mass; it makes no call of [Math.random]. *)
Theorem step_keeps_the_store_shape :
  forall (F : Type) (A : Arith F) (random : nat -> F) (dt : option F)
         (w : Worker F),
    length (objects (fst (onmessage random (STEP dt) w))) = length (objects w)
    /\ map (@radius F) (objects (fst (onmessage random (STEP dt) w)))
       = map (@radius F) (objects w)
    /\ map (@invMass F) (objects (fst (onmessage random (STEP dt) w)))
       = map (@invMass F) (objects w)
    /\ random_calls (fst (onmessage random (STEP dt) w)) = random_calls w.
Proof.
  intros F A random dt w. cbn [onmessage fst objects random_calls].
  split; [apply step_length|].
  split; [apply step_map, radius_step_stable|].
  split; [apply step_map, invMass_step_stable|reflexivity].
Qed.

(** X3.  The pair loop moves positions and nothing else: the number of
    bodies and every [prevPos], [vel], [radius] and [invMass] are as
    before it. *)
Theorem pair_pass_moves_positions_only :
  forall (F : Type) (A : Arith F) (objs : list (Body F)),
    length (particle_constraints objs) = length objs
    /\ map (@prevPos F) (particle_constraints objs) = map (@prevPos F) objs
    /\ map (@vel F) (particle_constraints objs) = map (@vel F) objs
    /\ map (@radius F) (particle_constraints objs) = map (@radius F) objs
    /\ map (@invMass F) (particle_constraints objs) = map (@invMass F) objs.
Proof.
  intros F A objs. split; [apply particle_constraints_length|].
  split; [apply particle_constraints_map, prevPos_stable|].
  split; [apply particle_constraints_map, vel_stable|].
  split; [apply particle_constraints_map, radius_stable|].
  apply particle_constraints_map, invMass_stable.
Qed.

(** X4.  When no pair of the store passes the test of the pair loop, the
    loop leaves the store as it is. *)
Theorem separated_store_untouched :
  forall (F : Type) (A : Arith F) (objs : list (Body F)),
    separated objs -> particle_constraints objs = objs.
Proof. intros F A. exact (@particle_constraints_separated F A). Qed.

(** Two spheres of radius 1 with centers 10 apart. *)
Lemma separated_store_untouched_witness :
  particle_constraints [Samples.resting 0 1; Samples.resting 10 1]
  = [Samples.resting 0 1; Samples.resting 10 1].
Proof.
  apply separated_store_untouched.
  intros i j a b Hij Hi Hj.
  destruct i as [|[|i]]; destruct j as [|[|j]]; cbn in Hi, Hj;
    try lia; try discriminate;
    try (destruct i; discriminate); try (destruct j; discriminate).
  injection Hi as <-. injection Hj as <-. vm_compute. reflexivity.
Defined.

Lemma updates_count (F : Type) (A : Arith F) (random : nat -> F)
      (es : list (Msg F)) (w : Worker F) :
  updates (snd (run random es w)) = length (filter (@is_step F) es).
Proof.
  revert w. induction es as [|e es IH]; intros w; [reflexivity|].
  rewrite run_cons. cbn [snd]. unfold updates in *. cbn [filter].
  rewrite onmessage_reply. destruct (is_step e); cbn [length]; now rewrite IH.
Qed.

Lemma posted_steps (F : Type) (A : Arith F) (random : nat -> F)
      (events : list Event) :
  length (filter (@is_step F) (posted (play random events))) = S (frames events)
  /\ Forall (fun e => throws e = false) (posted (play random events)).
Proof.
  induction events as [|e events [IHn IHt]] using rev_ind.
  - unfold play. cbn [fold_left]. rewrite mount_fields. cbn [posted].
    split; [reflexivity|]. repeat constructor.
  - rewrite play_snoc.
    destruct (handle_posted random (play random events) e)
      as (msg & Hposted & Hmsg & _).
    rewrite Hposted, filter_app, length_app, IHn.
    unfold frames. rewrite filter_app, length_app.
    split.
    + destruct e, msg; try contradiction; cbn; lia.
    + apply Forall_app. split; [exact IHt|].
      destruct e, msg; try contradiction; repeat constructor.
Qed.

(** X5.  Over any sequence of messages there is one reply slot per message,
    holding an UPDATE exactly at the STEP messages that carry a payload;
    INIT, SPAWN, EXPLOSION, RESET and a message of another type are not
    answered.  An INIT, SPAWN or STEP message without a payload makes the
    handler throw before it has changed or posted anything: no UPDATE, and
    the store as it was.  The component never posts such a message, and
    the worker answers what the component posts with one UPDATE for the
    STEP of the effect and one per frame. *)
Theorem one_reply_per_step :
  (forall (F : Type) (A : Arith F) (random : nat -> F) (es : list (Msg F))
          (w : Worker F),
      length (snd (run random es w)) = length es
      /\ map (@is_update F) (snd (run random es w)) = map (@is_step F) es
      /\ updates (snd (run random es w)) = length (filter (@is_step F) es))
  /\ (forall (F : Type) (A : Arith F) (random : nat -> F) (e : Msg F)
             (w : Worker F),
         throws e = true ->
         onmessage random e w = (w, None) /\ is_step e = false)
  /\ (forall (F : Type) (e : Msg F),
         throws e = true <->
         e = @INIT_undefined F \/ e = @SPAWN_undefined F
         \/ e = @STEP_undefined F)
  /\ (forall (F : Type) (A : Arith F) (ui_random worker_random : nat -> F)
             (events : list Event),
         Forall (fun e => throws e = false) (posted (play ui_random events))
         /\ updates (snd (run worker_random (posted (play ui_random events))
                              start))
            = S (frames events)).
Proof.
  split; [|split; [|split]].
  - intros F A random es. induction es as [|e es IH]; intros w.
    + repeat split; reflexivity.
    + split; [|split; [|apply updates_count]].
      * rewrite run_cons. cbn [snd length].
        now rewrite (proj1 (IH (fst (onmessage random e w)))).
      * rewrite run_cons. cbn [snd map].
        rewrite (proj1 (proj2 (IH (fst (onmessage random e w))))).
        now rewrite onmessage_reply.
  - intros F A random e w He. destruct e; try discriminate; split; reflexivity.
  - intros F e. split.
    + destruct e; try discriminate; auto.
    + intros [-> | [-> | ->]]; reflexivity.
  - intros F A ui_random worker_random events.
    destruct (@posted_steps F A ui_random events) as [Hn Ht].
    split; [exact Ht|]. now rewrite updates_count.
Qed.

(** The effect, a spawn, two frames and a reset: three UPDATE messages. *)
Lemma one_reply_per_step_witness :
  updates (snd (run Samples.zeros
                    (posted (play Samples.halves
                                  [SpawnClick; Frame; Frame; ResetClick]))
                    start))
  = 3
  /\ @onmessage float _ Samples.zeros (@STEP_undefined float)
                (mkWorker (init Samples.wide_pair) 0)
     = (mkWorker (init Samples.wide_pair) 0, None).
Proof.
  split.
  - exact (proj2 (proj2 (proj2 (proj2 one_reply_per_step)) float _
                        Samples.halves Samples.zeros
                        [SpawnClick; Frame; Frame; ResetClick])).
  - exact (proj1 (proj1 (proj2 one_reply_per_step) float _ Samples.zeros
                        (@STEP_undefined float)
                        (mkWorker (init Samples.wide_pair) 0) eq_refl)).
Defined.

(** X8.  A body on which none of the three tests of the environment pass
    is true is left as it is by the pass, its velocity included: friction
    and the wall bounce act only in a pass that clamps (at every carrier).
    In binary arithmetic no wall test is true after a pass, whatever the
    body, since a wall clamp stores 25 or -25; and the pass is idempotent
    on every body whose radius has a binary32 rounding that is not below
    it.  For a radius such as 0.7, whose rounding is below it, the floor
    clamp is true again on what it stored, and a second pass applies the
    friction a second time. *)
Theorem environment_pass_idempotent :
  (forall (F : Type) (A : Arith F) (o : Body F),
      (e1 (pos o) <! radius o) = false ->
      (fabs (e0 (pos o)) >! WORLD_SIZE) = false ->
      (fabs (e2 (pos o)) >! WORLD_SIZE) = false ->
      environment o = o)
  /\ (forall o : Body float, within_walls (environment o))
  /\ (forall o : Body float,
         (fround (radius o) <! radius o) = false ->
         environment (environment o) = environment o)
  /\ (fround (radius Samples.sliding) <! radius Samples.sliding) = true
  /\ (e0 (vel (environment (environment Samples.sliding)))
      <! e0 (vel (environment Samples.sliding))) = true.
Proof.
  split; [intros F A; exact (@environment_unchanged F A)|].
  split; [exact environment_within_walls|].
  split; [exact environment_twice_float|].
  vm_compute. split; reflexivity.
Qed.

(** A sphere of radius 1 below the floor and beyond a wall, moving: one
    pass clamps it to [(25, 1, 0)], a second pass changes nothing. *)
Lemma environment_pass_idempotent_witness :
  environment
    (environment (mkBody (vec3 30 0 0)%float (vec3 30 0 0)%float
                         (vec3 1 1 1)%float 1%float 1%float))
  = environment (mkBody (vec3 30 0 0)%float (vec3 30 0 0)%float
                        (vec3 1 1 1)%float 1%float 1%float)
  /\ pos (environment (mkBody (vec3 30 0 0)%float (vec3 30 0 0)%float
                              (vec3 1 1 1)%float 1%float 1%float))
     = vec3 25%float 1%float 0%float.
Proof.
  split; [|vm_compute; reflexivity].
  apply (proj1 (proj2 (proj2 environment_pass_idempotent))).
  vm_compute. reflexivity.
Defined.

Section WorkerInExactArithmetic.

Local Open Scope R_scope.

Lemma floor_constraint_fixed (o : Body R) :
  radius o <= e1 (pos o) -> floor_constraint o = o.
Proof.
  intros H. unfold floor_constraint.
  rewrite (proj2 (ltb_ge (get (pos o) i1) (radius o))); [reflexivity|exact H].
Qed.

Lemma boundary_constraint_fixed (i : axis) (o : Body R) :
  Rabs (get (pos o) i) <= 25 -> boundary_constraint i o = o.
Proof.
  intros H. unfold boundary_constraint.
  rewrite (proj2 (ltb_ge WORLD_SIZE (fabs (get (pos o) i)))); [reflexivity|].
  exact_literals. exact H.
Qed.

Lemma environment_fixed (o : Body R) :
  contained (flit 0) o -> environment o = o.
Proof.
  intros H.
  assert (H' : radius o <= e1 (pos o)
               /\ Rabs (e0 (pos o)) <= 25 /\ Rabs (e2 (pos o)) <= 25).
  { apply contained_exact in H. destruct H as (Hy & Hx & Hz).
    exact_literals. repeat split; lra. }
  destruct H' as (Hy & Hx & Hz).
  unfold environment.
  rewrite (@floor_constraint_fixed o Hy).
  rewrite (@boundary_constraint_fixed i0 o Hx).
  apply (@boundary_constraint_fixed i2 o Hz).
Qed.

Lemma environment_twice (o : Body R) :
  environment (environment o) = environment o.
Proof. apply environment_fixed, environment_contained. Qed.

Lemma separation_algebra (ax ay az bx b_y bz d M ia ib : R) :
  let dx := bx - ax in
  let dy := b_y - ay in
  let dz := bz - az in
  d * d = dx * dx + dy * dy + dz * dz -> d <> 0 -> ia + ib <> 0 ->
  let ca := (M - d) * (ia / (ia + ib)) in
  let cb := (M - d) * (ib / (ia + ib)) in
  let ex := (bx + dx / d * cb) - (ax - dx / d * ca) in
  let ey := (b_y + dy / d * cb) - (ay - dy / d * ca) in
  let ez := (bz + dz / d * cb) - (az - dz / d * ca) in
  ex * ex + ey * ey + ez * ez = M * M.
Proof.
  intros dx dy dz Hd Hd0 Ht ca cb ex ey ez.
  assert (Ex : ex = dx * (M / d)) by (unfold ex, ca, cb, dx; now field).
  assert (Ey : ey = dy * (M / d)) by (unfold ey, ca, cb, dy; now field).
  assert (Ez : ez = dz * (M / d)) by (unfold ez, ca, cb, dz; now field).
  rewrite Ex, Ey, Ez.
  replace (dx * (M / d) * (dx * (M / d)) + dy * (M / d) * (dy * (M / d))
           + dz * (M / d) * (dz * (M / d)))
    with ((dx * dx + dy * dy + dz * dz) * (M * M / (d * d))) by (now field).
  rewrite <- Hd. now field.
Qed.

Lemma resolved_distance (a b : Body R) :
  penetrating a b = true -> invMass a + invMass b <> 0 ->
  distSq_of (fst (resolve_pair a b)) (snd (resolve_pair a b))
  = minDist_of a b * minDist_of a b.
Proof.
  intros Hp Ht. rewrite (@resolve_pair_hit R _ a b Hp). cbn [fst snd].
  assert (Hs : 0 < distSq_of a b) by (apply penetrating_exact in Hp; lra).
  pose proof (@dist_square a b (Rlt_le _ _ Hs)) as Hd.
  assert (Hd0 : dist_of a b <> 0) by nra.
  unfold distSq_of, pushed_back, pushed_on, corr_of, normal_of, overlap_of in *.
  cbn [pos get e0 e1 e2] in *. revert Hd Hd0.
  generalize (dist_of a b) as d. intros d Hd Hd0.
  exact (@separation_algebra (e0 (pos a)) (e1 (pos a)) (e2 (pos a))
           (e0 (pos b)) (e1 (pos b)) (e2 (pos b)) d (minDist_of a b)
           (invMass a) (invMass b) Hd Hd0 Ht).
Qed.

End WorkerInExactArithmetic.

(** At every carrier, binary arithmetic included: a store in which none of
    the tests of the environment pass is true on any body and no pair
    passes the test of the pair loop is a fixed point of the solver. *)
Lemma untested_store_is_fixed (F : Type) (A : Arith F) (objs : list (Body F))
      (n : nat) :
  Forall (fun o => (e1 (pos o) <! radius o) = false
                   /\ (fabs (e0 (pos o)) >! WORLD_SIZE) = false
                   /\ (fabs (e2 (pos o)) >! WORLD_SIZE) = false) objs ->
  separated objs ->
  Nat.iter n solver_iteration objs = objs.
Proof.
  intros Hin Hsep.
  apply iter_invariant with (P := fun l => l = objs); [|reflexivity].
  intros l ->. unfold solver_iteration.
  replace (map environment objs) with objs.
  - now apply particle_constraints_separated.
  - symmetry. rewrite <- (map_id objs) at 2. apply map_ext_in.
    intros o Ho.
    destruct (proj1 (Forall_forall _ _) Hin o Ho) as (Hy & Hx & Hz).
    now apply environment_unchanged.
Qed.

(** X9.  In exact arithmetic a store in which every body is inside the
    floor and the walls and no pair passes the test of the pair loop is a
    fixed point of the solver: any number of iterations leaves it as it
    is. *)
Theorem solved_store_is_fixed :
  forall (objs : list (Body R)) (n : nat),
    Forall (fun o => (radius o <= e1 (pos o))%R
                     /\ (Rabs (e0 (pos o)) <= 25)%R
                     /\ (Rabs (e2 (pos o)) <= 25)%R) objs ->
    separated objs ->
    Nat.iter n solver_iteration objs = objs.
Proof.
  intros objs n Hin Hsep.
  apply iter_invariant with (P := fun l => l = objs); [|reflexivity].
  intros l ->. unfold solver_iteration.
  replace (map environment objs) with objs.
  - now apply particle_constraints_separated.
  - symmetry. rewrite <- (map_id objs) at 2. apply map_ext_in.
    intros o Ho. apply environment_fixed, contained_exact.
    destruct (proj1 (Forall_forall _ _) Hin o Ho) as (Hy & Hx & Hz).
    exact_literals. repeat split; lra.
Qed.

(** Two spheres of radius 1 at rest at height 5, centers 10 apart. *)
Lemma solved_store_is_fixed_witness :
  Nat.iter 4 solver_iteration [ExactSamples.resting 0 1; ExactSamples.resting 10 1]
  = [ExactSamples.resting 0 1; ExactSamples.resting 10 1].
Proof.
  apply solved_store_is_fixed.
  - repeat constructor; cbn; rewrite ?Rabs_R0, ?Rabs_pos_eq; lra.
  - intros i j a b Hij Hi Hj.
    destruct i as [|[|i]]; destruct j as [|[|j]]; cbn in Hi, Hj;
      try lia; try discriminate;
      try (destruct i; discriminate); try (destruct j; discriminate).
    injection Hi as <-. injection Hj as <-.
    unfold penetrating. apply andb_false_iff. left. apply ltb_ge.
    unfold distSq_of, minDist_of. cbn. exact_literals. lra.
Defined.

(** *** The formulas of the solver, read in exact arithmetic

    The lemmas of this part are about the formulas of the code over the
    real numbers, where nothing is rounded.  They say what the solver is
    designed to do; they are not statements about the program, which
    rounds every operation to binary64 and every store to binary32, and
    the runs [resolved_pair_still_overlaps], [pair_sum_drifts] and
    [free_fall_stalls] at the end of the file show the program departing
    from each of them. *)

(** One resolution of a pair the loop accepts, with combined inverse mass
    not zero, puts the two centers exactly [radius a + radius b] apart:
    the pair no longer passes the test, and resolving it again changes
    nothing. *)
Lemma exact_pair_resolution_separates :
  forall a b : Body R,
    penetrating a b = true ->
    (invMass a + invMass b <> 0)%R ->
    (distSq_of (fst (resolve_pair a b)) (snd (resolve_pair a b))
     = (radius a + radius b) * (radius a + radius b))%R
    /\ penetrating (fst (resolve_pair a b)) (snd (resolve_pair a b)) = false
    /\ resolve_pair (fst (resolve_pair a b)) (snd (resolve_pair a b))
       = resolve_pair a b.
Proof.
  intros a b Hp Ht.
  pose proof (resolved_distance a b Hp Ht) as Hd.
  assert (Hn : penetrating (fst (resolve_pair a b)) (snd (resolve_pair a b)) = false).
  { unfold penetrating. apply andb_false_iff. left. apply ltb_ge.
    rewrite Hd. unfold minDist_of.
    destruct (resolve_pair_frame a b) as (_ & _ & -> & _ & _ & _ & -> & _).
    apply Rle_refl. }
  split; [exact Hd|]. split; [exact Hn|].
  rewrite (@resolve_pair_miss R _ _ _ Hn).
  now destruct (resolve_pair a b).
Qed.

(** A pair resolution keeps the mass-weighted center of the pair: along
    every axis the displacements [da] and [db] satisfy
    [invMass b * da + invMass a * db = 0]; with equal inverse masses the sum
    of the two positions is as before. *)
Lemma exact_pair_resolution_keeps_centroid :
  forall (a b : Body R) (i : axis),
    penetrating a b = true ->
    (invMass a + invMass b <> 0)%R ->
    (invMass b * (get (pos (fst (resolve_pair a b))) i - get (pos a) i)
     + invMass a * (get (pos (snd (resolve_pair a b))) i - get (pos b) i) = 0)%R
    /\ (invMass a = invMass b ->
        (get (pos (fst (resolve_pair a b))) i + get (pos (snd (resolve_pair a b))) i
         = get (pos a) i + get (pos b) i)%R).
Proof.
  intros a b i Hp Ht. rewrite (@resolve_pair_hit R _ a b Hp). cbn [fst snd].
  assert (Hs : (0 < distSq_of a b)%R) by (apply penetrating_exact in Hp; lra).
  pose proof (@dist_square a b (Rlt_le _ _ Hs)) as Hd.
  assert (Hd0 : dist_of a b <> 0%R) by nra.
  unfold pushed_back, pushed_on, corr_of, normal_of.
  generalize (overlap_of a b) as ov. revert Hd0.
  generalize (dist_of a b) as d. intros d Hd0 ov.
  split.
  - destruct i; cbn [pos get e0 e1 e2]; exact_literals; now field.
  - intros Hm. rewrite Hm in *.
    destruct i; cbn [pos get e0 e1 e2]; exact_literals; now field.
Qed.

Section LoneBody.

Local Open Scope R_scope.

Lemma rest_speed_exact (h : R) : rest_speed h = -9.81 * 0.001 * h * 0.995.
Proof. unfold rest_speed. exact_literals. lra. Qed.

Lemma predict_at_rest (h x y z r m : R) (q : Vec3 R) :
  predict h (mkBody (vec3 x y z) q (vec3 0 0 0) r m)
  = mkBody (vec3 x (y + rest_speed h * h) z) (vec3 x y z)
           (vec3 0 (rest_speed h) 0) r m.
Proof.
  rewrite predict_fields. unfold predicted_vel, rest_speed.
  cbn [pos vel e0 e1 e2 radius invMass]. exact_literals.
  f_equal; f_equal; lra.
Qed.

Lemma velocity_update_slow (h x y z y0 r m : R) (v : Vec3 R) :
  h <> 0 -> Rabs ((y - y0) / h) < 0.001 ->
  velocity_update h (mkBody (vec3 x y z) (vec3 x y0 z) v r m)
  = mkBody (vec3 x y z) (vec3 x y0 z) (vec3 0 0 0) r m.
Proof.
  intros Hh Hv. rewrite velocity_update_fields.
  cbn [pos prevPos e0 e1 e2 radius invMass].
  assert (H0 : forall t, snapped ((t -! t) /! h) = 0).
  { intros t. apply snapped_small. exact_literals.
    replace ((t - t) / h) with 0 by (now field). rewrite Rabs_R0. lra. }
  assert (H1 : snapped ((y -! y0) /! h) = 0).
  { apply snapped_small. exact Hv. }
  exact_literals. now rewrite !H0, H1.
Qed.

Lemma rest_speed_falls (h : R) : h <> 0 -> rest_speed h * h < 0.
Proof. intros Hh. rewrite rest_speed_exact. nra. Qed.

Lemma environment_clamps_floor (x y z r m vy : R) (q : Vec3 R) :
  y < r -> Rabs x <= 25 -> Rabs z <= 25 ->
  environment (mkBody (vec3 x y z) q (vec3 0 vy 0) r m)
  = mkBody (vec3 x r z) q (vec3 0 vy 0) r m.
Proof.
  intros Hy Hx Hz.
  assert (Hf : floor_constraint (mkBody (vec3 x y z) q (vec3 0 vy 0) r m)
               = mkBody (vec3 x r z) q (vec3 0 vy 0) r m).
  { unfold floor_constraint. cbn [pos get radius e1].
    rewrite (proj2 (ltb_lt y r) Hy). unfold pos_put, vel_put, put.
    cbn [pos vel prevPos radius invMass get e0 e1 e2].
    exact_literals. f_equal. f_equal; lra. }
  unfold environment. rewrite Hf.
  rewrite (@boundary_constraint_fixed i0) by exact Hx.
  apply boundary_constraint_fixed. exact Hz.
Qed.

Lemma environment_four_times (o : Body R) :
  environment (environment (environment (environment o))) = environment o.
Proof. now rewrite !environment_twice. Qed.

Lemma substep_on_floor (h x z r m : R) (q : Vec3 R) :
  h <> 0 -> Rabs x <= 25 -> Rabs z <= 25 ->
  substep h [mkBody (vec3 x r z) q (vec3 0 0 0) r m]
  = [mkBody (vec3 x r z) (vec3 x r z) (vec3 0 0 0) r m].
Proof.
  intros Hh Hx Hz. rewrite substep_single, environment_four_times.
  rewrite predict_at_rest.
  rewrite environment_clamps_floor;
    [|pose proof (rest_speed_falls Hh); lra|assumption|assumption].
  rewrite velocity_update_slow; [reflexivity|assumption|].
  replace ((r - r) / h) with 0 by (now field). rewrite Rabs_R0. lra.
Qed.

Lemma substep_in_the_air (h x y z r m : R) (q : Vec3 R) :
  h <> 0 -> Rabs (rest_speed h) < 0.001 ->
  r <= y + rest_speed h * h -> Rabs x <= 25 -> Rabs z <= 25 ->
  substep h [mkBody (vec3 x y z) q (vec3 0 0 0) r m]
  = [mkBody (vec3 x (y + rest_speed h * h) z) (vec3 x y z) (vec3 0 0 0) r m].
Proof.
  intros Hh Hs Hy Hx Hz. rewrite substep_single, environment_four_times.
  rewrite predict_at_rest.
  rewrite environment_fixed.
  - rewrite velocity_update_slow; [reflexivity|assumption|].
    replace ((y + rest_speed h * h - y) / h) with (rest_speed h) by (now field).
    exact Hs.
  - apply contained_exact. cbn [pos radius e0 e1 e2]. exact_literals.
    repeat split; lra.
Qed.

Lemma substeps_in_the_air (h x z r m : R) (n : nat) :
  h <> 0 -> Rabs (rest_speed h) < 0.001 -> Rabs x <= 25 -> Rabs z <= 25 ->
  forall (y : R) (q : Vec3 R),
    r <= y + INR n * (rest_speed h * h) ->
    exists q' : Vec3 R,
      Nat.iter n (substep h) [mkBody (vec3 x y z) q (vec3 0 0 0) r m]
      = [mkBody (vec3 x (y + INR n * (rest_speed h * h)) z) q' (vec3 0 0 0) r m].
Proof.
  intros Hh Hs Hx Hz. pose proof (rest_speed_falls Hh) as Hc.
  induction n as [|n IH]; intros y q Hy.
  - exists q. cbn [Nat.iter INR]. now rewrite Rmult_0_l, Rplus_0_r.
  - rewrite S_INR in *. pose proof (pos_INR n) as Hn.
    destruct (IH y q) as [q' Hq]; [nra|].
    change (Nat.iter (S n) (substep h) ?l) with (substep h (Nat.iter n (substep h) l)).
    rewrite Hq. rewrite substep_in_the_air; try assumption; [|lra].
    eexists. f_equal. f_equal. f_equal. lra.
Qed.

Lemma substep_size_nonzero (dt : option R) : substep_size dt <> 0.
Proof.
  unfold substep_size, dt_or_default.
  destruct dt as [d|].
  - destruct (ftruthy d) eqn:E.
    + apply truthy_nonzero in E. exact_literals. cbn. intros H. apply E. lra.
    + exact_literals. cbn. lra.
  - exact_literals. cbn. lra.
Qed.


End LoneBody.

(** In exact arithmetic, when the speed gravity gives a resting body
    in one substep, [|g h d|], is below the snap threshold 0.001 (as with
    [dt = 1]: about 0.00081), a lone body at rest in the air never gains
    speed: in each of the 12 substeps it descends by [|g d| h^2] and its
    velocity is snapped back to 0, so a STEP lowers it by [12 |g d| h^2] and
    leaves it at rest. *)
Lemma exact_free_fall_creeps :
  forall (dt : option R) (o : Body R),
    (Rabs (rest_speed (substep_size dt)) < 0.001)%R ->
    vel o = vec3 0%R 0%R 0%R ->
    (radius o
     <= e1 (pos o) + 12 * (rest_speed (substep_size dt) * substep_size dt))%R ->
    (Rabs (e0 (pos o)) <= 25)%R -> (Rabs (e2 (pos o)) <= 25)%R ->
    map (@pos R) (step dt [o])
    = [vec3 (e0 (pos o))
            (e1 (pos o) + 12 * (rest_speed (substep_size dt) * substep_size dt))%R
            (e2 (pos o))]
    /\ map (@vel R) (step dt [o]) = [vec3 0%R 0%R 0%R]
    /\ (rest_speed (substep_size dt) * substep_size dt < 0)%R.
Proof.
  intros dt [[x y z] q v r m] Hs Hv Hy Hx Hz.
  cbn [pos vel radius e0 e1 e2] in *. subst v.
  pose proof (@substep_size_nonzero dt) as Hh.
  unfold step. revert Hs Hy Hh. generalize (substep_size dt) as h.
  intros h Hs Hy Hh.
  assert (H12 : INR substeps = 12%R) by (unfold substeps; simpl; lra).
  destruct (@substeps_in_the_air h x z r m substeps Hh Hs Hx Hz y q) as [q' Hq].
  - rewrite H12. exact Hy.
  - rewrite Hq, H12. cbn [map pos vel].
    split; [reflexivity|]. split; [reflexivity|]. now apply rest_speed_falls.
Qed.

(** In exact arithmetic a lone body that lies on the floor line
    ([pos.y = radius]) at rest inside the walls stays where it is under
    every STEP, whatever [dt]: each substep lowers it, the floor clamp puts
    it back, and the reconstructed velocity is 0. *)
Lemma exact_rest_on_the_floor :
  forall (dt : option R) (o : Body R),
    e1 (pos o) = radius o ->
    vel o = vec3 0%R 0%R 0%R ->
    (Rabs (e0 (pos o)) <= 25)%R -> (Rabs (e2 (pos o)) <= 25)%R ->
    step dt [o] = [settled o].
Proof.
  intros dt [[x y z] q v r m] Hy Hv Hx Hz.
  cbn [pos vel radius e0 e1 e2] in *. subst v y. unfold settled. cbn [pos vel radius invMass].
  pose proof (@substep_size_nonzero dt) as Hh.
  unfold step. revert Hh. generalize (substep_size dt) as h. intros h Hh.
  unfold substeps. rewrite Nat.iter_succ_r.
  rewrite (@substep_on_floor h x z r m q Hh Hx Hz).
  apply iter_invariant
    with (P := fun l => l = [mkBody (vec3 x r z) (vec3 x r z) (vec3 0%R 0%R 0%R) r m]);
    [|reflexivity].
  intros l ->. now apply substep_on_floor.
Qed.

(** X11.  In binary arithmetic, a lone sphere of radius 1 (the radius of
    every body the component creates) that lies on the floor line at rest,
    with coordinates [x] and [z] that are binary32 numbers no wall test is
    true on, stays there under a STEP with [dt = 1] or without [dt]: each of
    the 12 substeps lowers it, the floor clamp puts it back at height 1,
    and the velocity is reconstructed as 0.  It ends with [prevPos] at its
    position, whatever [prevPos] was.  The coordinates come back as
    [x + 0] and [z + 0], which is the coordinate itself except that a
    negative zero comes back as zero. *)
Theorem rest_on_the_floor_is_stable :
  forall (x z m : float) (q : Vec3 float) (dt : option float),
    dt = None \/ dt = Some 1%float ->
    fround x = x -> fround z = z ->
    PrimFloat.is_nan x = false -> PrimFloat.is_nan z = false ->
    (fabs x >! WORLD_SIZE) = false -> (fabs z >! WORLD_SIZE) = false ->
    step dt [mkBody (vec3 x 1%float z) q (vec3 0 0 0)%float 1%float m]
    = [mkBody (vec3 (PrimFloat.add x 0) 1%float (PrimFloat.add z 0))
              (vec3 (PrimFloat.add x 0) 1%float (PrimFloat.add z 0))
              (vec3 0 0 0)%float 1%float m]
    /\ (PrimFloat.add x 0 = x
        \/ (x = (-0)%float /\ PrimFloat.add x 0 = 0%float))
    /\ (PrimFloat.add z 0 = z
        \/ (z = (-0)%float /\ PrimFloat.add z 0 = 0%float)).
Proof.
  intros x z m q dt Hdt Hfx Hfz Hnx Hnz Hwx Hwz.
  split; [|split; apply float_add_zero].
  assert (Hh : substep_size dt = substep_size (Some 1%float)).
  { destruct Hdt as [-> | ->]; vm_compute; reflexivity. }
  change (PrimFloat.add x 0) with (x +! 0%float).
  change (PrimFloat.add z 0) with (z +! 0%float).
  unfold step. rewrite Hh. unfold substeps.
  rewrite Nat.iter_succ_r,
    (@substep_on_floor_float x z m q Hfx Hfz Hnx Hnz Hwx Hwz).
  rewrite Nat.iter_succ_r.
  rewrite (@substep_on_floor_float (x +! 0%float) (z +! 0%float) m
             (vec3 x 1%float z)
             (float_add_zero_stored Hfx) (float_add_zero_stored Hfz)
             (@float_add_zero_number x Hnx) (@float_add_zero_number z Hnz)
             (float_add_zero_walls Hwx) (float_add_zero_walls Hwz)).
  rewrite !float_add_zero_twice.
  apply iter_invariant
    with (P := fun l => l = [mkBody (vec3 (x +! 0%float) 1%float (z +! 0%float))
                                    (vec3 (x +! 0%float) 1%float (z +! 0%float))
                                    (vec3 0 0 0)%float 1%float m]);
    [|reflexivity].
  intros l ->.
  rewrite (@substep_on_floor_float (x +! 0%float) (z +! 0%float) m
             (vec3 (x +! 0%float) 1%float (z +! 0%float))
             (float_add_zero_stored Hfx) (float_add_zero_stored Hfz)
             (@float_add_zero_number x Hnx) (@float_add_zero_number z Hnz)
             (float_add_zero_walls Hwx) (float_add_zero_walls Hwz)).
  now rewrite !float_add_zero_twice.
Qed.

(** A sphere lying at [(3, 1, -0)] with a [prevPos] elsewhere, stepped with
    [dt = 1]: it stays, and its negative zero comes back as zero. *)
Lemma rest_on_the_floor_is_stable_witness :
  step (Some 1%float)
       [mkBody (vec3 3 1 (-0))%float (vec3 3 5 (-0))%float (vec3 0 0 0)%float
               1%float 1%float]
  = [mkBody (vec3 3 1 0)%float (vec3 3 1 0)%float (vec3 0 0 0)%float
            1%float 1%float].
Proof.
  refine (proj1 (@rest_on_the_floor_is_stable 3%float (-0)%float 1%float
                   (vec3 3 5 (-0))%float (Some 1%float) _ _ _ _ _ _ _));
    first [now right | vm_compute; reflexivity].
Defined.


(** X12.  Once the worker has handled what the component has posted,
    there are as many bodies in the store as meshes in [meshesRef], after
    the effect and any sequence of frames and button presses: a spawn adds
    one of each, a reset cuts both to their first 35. *)
Theorem meshes_match_bodies :
  forall (F : Type) (A : Arith F) (ui_random worker_random : nat -> F)
         (events : list Event),
    length (meshesRef (play ui_random events))
    = length (objects (fst (run worker_random
                                (posted (play ui_random events)) start))).
Proof.
  intros F A ui_random worker_random events.
  induction events as [|e events IH] using rev_ind.
  - unfold play. cbn [fold_left].
    rewrite (proj1 (run_mount ui_random worker_random)).
    rewrite mount_fields. cbn [meshesRef]. apply populate_lengths.
  - rewrite play_snoc.
    destruct (handle_posted ui_random (play ui_random events) e)
      as (msg & Hposted & Hmsg & Hmeshes).
    rewrite Hposted, run_snoc, onmessage_length.
    destruct e, msg; try contradiction.
    + now rewrite Hmeshes.
    + destruct Hmsg as [_ ->]. now rewrite IH.
    + now rewrite Hmeshes.
    + rewrite Hmeshes, length_firstn. now rewrite IH.
Qed.

(** X13.  Every body the component puts into the store has radius 1 and
    inverse mass 1, and so has every body of the store at any time: the
    worker checks no radius, and this caller never sends another one. *)
Theorem component_bodies_have_radius_one :
  forall (F : Type) (A : Arith F) (ui_random worker_random : nat -> F)
         (events : list Event),
    Forall (fun b => radius b = flit 1.0 /\ invMass b = flit 1)
           (objects (fst (run worker_random
                              (posted (play ui_random events)) start)))
    /\ Forall (fun e => Forall (fun p => init_radius p = flit 1.0) (payload_of e))
              (posted (play ui_random events)).
Proof.
  intros F A ui_random worker_random events.
  assert (Hinit : Forall (fun p : BodyInit F => init_radius p = flit 1.0)
                    (snd (fst (populate ui_random 35 0 0)))).
  { apply populate_payloads. reflexivity. }
  assert (Hrad : Forall (fun r => r = flit 1.0)
                   (map (@radius F)
                        (objects (fst (run worker_random
                                           (posted (play ui_random events)) start))))
                 /\ Forall (fun e => Forall (fun p => init_radius p = flit 1.0)
                                            (payload_of e))
                           (posted (play ui_random events))).
  { induction events as [|e events IH] using rev_ind.
    - unfold play. cbn [fold_left]. split.
      + rewrite (proj2 (run_mount ui_random worker_random)).
        now apply Forall_map.
      + rewrite mount_fields. cbn [posted].
        constructor; [exact Hinit|]. repeat constructor.
    - destruct IH as [IHr IHp].
      rewrite play_snoc.
      destruct (handle_posted ui_random (play ui_random events) e)
        as (msg & Hposted & Hmsg & _).
      rewrite Hposted, run_snoc, onmessage_radius.
      split.
      + destruct e, msg; try contradiction; auto.
        * destruct Hmsg as [Hr _]. apply Forall_app. split; [exact IHr|].
          repeat constructor. exact Hr.
        * rewrite firstn_map. apply Forall_map.
          apply Forall_firstn. now apply Forall_map in IHr.
      + apply Forall_app. split; [exact IHp|].
        destruct e, msg; try contradiction; repeat constructor.
        apply Hmsg. }
  assert (Hinv : Forall (fun b : Body F => invMass b = flit 1)
                   (objects (fst (run worker_random
                                      (posted (play ui_random events)) start)))).
  { apply reachable_invMass with (random := worker_random).
    apply run_reachable. constructor. }
  split; [|apply Hrad].
  destruct Hrad as [Hr _]. apply Forall_map in Hr.
  apply Forall_forall. intros b Hb. split.
  - exact (proj1 (Forall_forall _ _) Hr b Hb).
  - exact (proj1 (Forall_forall _ _) Hinv b Hb).
Qed.

(** X14.  When the positions of an UPDATE are those of the bodies of the
    store, the handler puts mesh [i] where body [i] is, for every mesh that
    has a body of its index; it leaves the other meshes, the materials and
    the number of meshes as they are, and it never reads past the array. *)
Theorem update_shows_positions :
  forall (F : Type) (A : Arith F) (objs : list (Body F))
         (meshes : list (Mesh F)) (i : nat) (m : Mesh F),
    nth_error meshes i = Some m ->
    exists meshes' : list (Mesh F),
      on_update (positions_of objs) meshes = Some meshes'
      /\ length meshes' = length meshes
      /\ nth_error meshes' i
         = Some (match nth_error objs i with
                 | Some o =>
                     mkMesh (uColor m) (uRoughness m) (uMetalness m)
                            (fround (get (pos o) i0), fround (get (pos o) i1),
                             fround (get (pos o) i2))
                 | None => m
                 end).
Proof.
  intros F A objs meshes i m Hm. exists (shown objs meshes).
  split; [apply on_update_shown|]. split; [apply shown_length|].
  now apply shown_nth.
Qed.

(** A mesh at the origin and a body at [(7, 5, 0)]. *)
Lemma update_shows_positions_witness :
  exists meshes' : list (Mesh float),
    on_update (positions_of [Samples.resting 7 1])
              [mkMesh (Hex 0) 0%float 0%float (0, 0, 0)%float]
    = Some meshes'
    /\ nth_error meshes' 0
       = Some (mkMesh (Hex 0) 0%float 0%float (7, 5, 0)%float).
Proof.
  destruct (@update_shows_positions float _ [Samples.resting 7 1]
              [mkMesh (Hex 0) 0%float 0%float (0, 0, 0)%float] 0
              (mkMesh (Hex 0) 0%float 0%float (0, 0, 0)%float) eq_refl)
    as (meshes' & Hupdate & _ & Hnth).
  exists meshes'. split; [exact Hupdate|].
  refine (eq_trans Hnth _). vm_compute. reflexivity.
Defined.

Section ComponentInExactArithmetic.

Local Open Scope R_scope.

Variable random : nat -> R.
Hypothesis random_range : forall k, 0 <= random k < 1.





End ComponentInExactArithmetic.



(** ** Properties of the frame-rate history *)

Section HistoryFacts.

Context {F : Type}.

Lemma skipn_snoc (X : Type) (k : nat) (l : list X) (x : X) :
  k <= length l -> skipn k (l ++ [x]) = skipn k l ++ [x].
Proof.
  revert l; induction k as [|k IH]; intros l Hk; [reflexivity|].
  destruct l as [|y l]; cbn in *; [lia|]. apply IH. lia.
Qed.

Lemma tl_skipn (X : Type) (k : nat) (l : list X) :
  tl (skipn k l) = skipn (S k) l.
Proof.
  revert l; induction k as [|k IH]; intros [|y l]; cbn; auto.
Qed.

Lemma record_all_snoc (samples : list (Z * F)) (s : Z * F) (data : list (Sample F)) :
  record_all (samples ++ [s]) data
  = record_sample (fst s) (snd s) (record_all samples data).
Proof. unfold record_all. now rewrite fold_left_app. Qed.

Lemma record_all_last (samples : list (Z * F)) :
  record_all samples []
  = map (fun s => mkSample (fst s) (snd s))
        (skipn (length samples - 50) samples).
Proof.
  induction samples as [|s samples IH] using rev_ind; [reflexivity|].
  rewrite record_all_snoc, IH. unfold record_sample.
  rewrite length_app, length_map, length_skipn, length_app. cbn [length].
  destruct (Nat.ltb 50 (length samples - (length samples - 50) + 1)) eqn:E.
  - apply Nat.ltb_lt in E.
    replace (length samples + 1 - 50) with (S (length samples - 50)) by lia.
    rewrite <- tl_skipn, skipn_snoc by lia.
    destruct (skipn (length samples - 50) samples) eqn:Es.
    + apply (f_equal (@length _)) in Es. rewrite length_skipn in Es.
      cbn [length] in Es. lia.
    + cbn [map app tl]. now rewrite map_app.
  - apply Nat.ltb_ge in E.
    replace (length samples + 1 - 50) with (length samples - 50) by lia.
    rewrite skipn_snoc by lia. now rewrite map_app.
Qed.

End HistoryFacts.

(** X16.  The frame-rate history never holds more than 50 samples: after
    the effect has run on any sequence of samples, starting empty, it holds
    the last 50 of them (all of them when there are fewer), oldest
    first. *)
Theorem history_keeps_last_50 :
  forall (F : Type) (samples : list (Z * F)),
    record_all samples []
    = map (fun s => mkSample (fst s) (snd s))
          (skipn (length samples - 50) samples)
    /\ length (record_all samples []) = Nat.min (length samples) 50.
Proof.
  intros F samples. rewrite record_all_last. split; [reflexivity|].
  rewrite length_map, length_skipn. lia.
Qed.

(** ** Concrete runs of the further properties, at the carrier [float] *)

Section MoreFloatRuns.

Import Samples.

(** A sphere of radius 1 lying on the floor stays there in binary
    arithmetic too. *)
Lemma rest_on_the_floor_float :
  step (Some 1%float)
       [mkBody (vec3 0 1 0)%float (vec3 0 1 0)%float (vec3 0 0 0)%float
               1%float 1%float]
  = [mkBody (vec3 0 1 0)%float (vec3 0 1 0)%float (vec3 0 0 0)%float
            1%float 1%float].
Proof. vm_compute. reflexivity. Qed.

(** A sphere at rest at height 5 is lower and still at rest after a STEP. *)
Lemma free_fall_creeps_float :
  map (fun o => (e1 (pos o) <! 5%float, vel o)) (step (Some 1%float) [resting 0 1])
  = [(true, vec3 0%float 0%float 0%float)].
Proof. vm_compute. reflexivity. Qed.

(** In binary arithmetic the floor clamp of a moving body of radius 0.7
    fires in each pass, and the friction with it. *)
Lemma floor_friction_repeats :
  map (fun o => e0 (vel o))
      [environment (mkBody (vec3 0 0 0)%float (vec3 0 0 0)%float
                           (vec3 1 0 0)%float (Float64.lit 0.7) 1%float);
       environment
         (environment (mkBody (vec3 0 0 0)%float (vec3 0 0 0)%float
                              (vec3 1 0 0)%float (Float64.lit 0.7) 1%float))]
  = [Float64.fround32 (Float64.lit 0.95);
     Float64.fround32
       (PrimFloat.mul (Float64.fround32 (Float64.lit 0.95)) (Float64.lit 0.95))].
Proof. vm_compute. reflexivity. Qed.

(** Where the program departs from the formulas read in exact
    arithmetic.  A resolved pair may still pass the test, and a second
    resolution moves it again. *)
Lemma resolved_pair_still_overlaps :
  penetrating (ball 0 5 0) (ball 1 5.5 0.25) = true
  /\ penetrating (fst (resolve_pair (ball 0 5 0) (ball 1 5.5 0.25)))
                 (snd (resolve_pair (ball 0 5 0) (ball 1 5.5 0.25)))
     = true
  /\ (e0 (pos (fst (resolve_pair
                      (fst (resolve_pair (ball 0 5 0) (ball 1 5.5 0.25)))
                      (snd (resolve_pair (ball 0 5 0) (ball 1 5.5 0.25))))))
      <! e0 (pos (fst (resolve_pair (ball 0 5 0) (ball 1 5.5 0.25)))))
     = true.
Proof. vm_compute. repeat split; reflexivity. Qed.

(** The sum of the two positions of a pair of equal inverse masses is not
    kept by a resolution. *)
Lemma pair_sum_drifts :
  (e0 (pos (fst (resolve_pair (ball (Float64.lit 0.1) 5 0)
                              (ball (Float64.lit 1.3) 5 0))))
   +! e0 (pos (snd (resolve_pair (ball (Float64.lit 0.1) 5 0)
                                 (ball (Float64.lit 1.3) 5 0))))
   <! e0 (pos (ball (Float64.lit 0.1) 5 0))
      +! e0 (pos (ball (Float64.lit 1.3) 5 0)))
  = true.
Proof. vm_compute. reflexivity. Qed.

(** A sphere at rest at height 10000 does not fall at all: the descent of
    a substep is below half the spacing of the binary32 numbers there.  At
    height 1500 the descent rounds up to one spacing, the reconstructed
    speed passes the snap threshold, and the sphere does gain speed. *)
Lemma free_fall_stalls :
  step (Some 1%float) [ball 0 10000 0] = [ball 0 10000 0]
  /\ map (fun o => fabs (e1 (vel o)) >! Float64.lit 0.001)
         (step (Some 1%float) [ball 0 1500 0])
     = [true].
Proof. vm_compute. split; reflexivity. Qed.

(** The UPDATE handler on an empty array, on one triple for two meshes,
    and on an array that ends inside a triple. *)
Lemma on_update_edges :
  let m := mkMesh (Hex 0) 0%float 0%float (0, 0, 0)%float in
  on_update [] [m; m] = Some [m; m]
  /\ on_update [1; 2; 3]%float [m; m]
     = Some [position_set m 1%float 2%float 3%float; m]
  /\ on_update [1; 2; 3; 4]%float [m; m] = None
  /\ on_update [1; 2; 3; 4]%float [m]
     = Some [position_set m 1%float 2%float 3%float].
Proof. vm_compute. repeat split; reflexivity. Qed.

(** The effect, three spawns and a reset: 35 meshes again, and 5 calls of
    [Math.random] per initial sphere and 7 per spawn. *)
Lemma play_counts :
  map (fun events => (length (meshesRef (play zeros events)),
                      length (posted (play zeros events)),
                      main_random_calls (play zeros events)))
      [[]; [SpawnClick; SpawnClick; SpawnClick];
       [SpawnClick; SpawnClick; SpawnClick; Frame; ResetClick]]
  = [(35, 2, 175); (38, 5, 196); (35, 7, 196)].
Proof. vm_compute. reflexivity. Qed.

End MoreFloatRuns.
